(** * The n-Chain environment (gym/envs/toy_text/nchain.py)

    A shallow embedding of [NChainEnv] and the verification of its
    step/reset protocol, its transition table and its episode counter.

    Conventions of the embedding:
    - Python integers ([n], [state], [iters], [max_iters], the rewards and the
      requested action) are [Z];
    - the slip probability and the draws of the generator are Python floats,
      represented by the rationals [Q] they denote: the comparison [<] that
      [step] performs on them is exact, and the subtraction [1 - slip] of
      the transition table is the float subtraction, which rounds its exact
      result to the nearest binary64 number ([round64]);
    - dictionaries are [gmap]s; [keys] enumerates the domain;
    - a method is a function from the object before the call to the pair of
      its outcome and the object after the call, so that what a raised
      exception leaves behind can be stated. *)

From Stdlib Require Import ZArith QArith Qminmax Qround Qpower Qabs.
From Stdlib Require Import Lqa Lia Bool.
From stdpp Require Import gmap strings list fin_maps.

Local Open Scope Z_scope.

(** ** Numbers *)

(** Python's [x < y] on two numbers, as a boolean. *)
Definition Qltb (x y : Q) : bool :=
  (Qnum x * Z.pos (Qden y) <? Qnum y * Z.pos (Qden x))%Z.

(** *** Floats

    A finite float is the rational it denotes. An arithmetic operation on
    floats returns the exact result rounded to the nearest binary64 number,
    ties to the even significand (the IEEE 754 default, the one Python
    uses). Results beyond the range of binary64 (infinities) are not
    represented: [1 - slip] cannot overflow for a finite [slip]. *)

(** [floor(log2 x)] for a positive [x]. *)
Definition Qlog2 (x : Q) : Z :=
  let k := Z.log2 (Qnum x) - Z.log2 (Z.pos (Qden x)) in
  if Qle_bool (2 ^ k) x then k else k - 1.

(** Rounding to the nearest integer, ties to even. *)
Definition rne (x : Q) : Z :=
  let f := Qfloor x in
  match (x - inject_Z f ?= 1 # 2)%Q with
  | Lt => f
  | Gt => f + 1
  | Eq => if Z.even f then f else f + 1
  end.

(** Rounding to the nearest binary64 number: 53 significant bits, least
    exponent -1074 (subnormal numbers included). *)
Definition round64 (x : Q) : Q :=
  if Qeq_bool x 0 then 0%Q
  else
    let e := Z.max (Qlog2 (Qabs x) - 52) (-1074) in
    (inject_Z (rne (x / 2 ^ e)) * 2 ^ e)%Q.

(** Python's [x - y] and [x + y] on floats. *)
Definition fsub (x y : Q) : Q := round64 (x - y).
Definition fadd (x y : Q) : Q := round64 (x + y).

(** Truth value of an integer used as a condition ([if action:]). *)
Definition truthy (a : Z) : bool := negb (a =? 0).

(** [range(k)]. *)
Definition range (k : Z) : list Z := seqZ 0 k.

(** ** Dictionaries *)

(** [d.keys()]. *)
Definition keys {V : Type} (d : gmap Z V) : list Z := elements (dom d).

(** [{k: f(k) for k in ks}]: the keys are inserted one after the other. *)
Definition dict_comp {V : Type} (f : Z → V) (ks : list Z) : gmap Z V :=
  foldl (λ d k, <[k := f k]> d) ∅ ks.

(** ** Spaces *)

(** Modelled from the spec: [gym.spaces.Discrete] is not among the sources.
    The spec gives it as "discrete, values 0..size-1", and [contains] as the
    membership test of that range. *)
Record Discrete : Type := { space_n : Z }.

Definition contains (sp : Discrete) (x : Z) : bool :=
  (0 <=? x) && (x <? space_n sp).

(** ** Outcomes of a call *)

Inductive exn : Type := AssertionError.

Inductive outcome (A : Type) : Type :=
| Return (a : A)
| Raise (x : exn).
Arguments Return {A} a.
Arguments Raise {A} x.

(** One entry of the transition table:
    [(probability, next_state, reward, None)]. *)
Definition transition : Type := Q * Z * Z * unit.

(** What [step] returns: [(state, reward, done, {})]. *)
Definition step_result : Type := Z * Z * bool * gmap string Z.

Section NChain.

(** The generator behind [self.np_random] (numpy's [RandomState]) is not
    part of the sources: its state space, its [rand()] and the way a seed
    initialises it are parameters of the development. *)
Variable rng : Type.
Variable rand : rng → Q * rng.
Variable mk_rng : Z → rng.

(** Modelled from the spec: [gym.utils.seeding.np_random] is not among the
    sources. The generator is initialised "deterministically from the seed
    if provided, otherwise from an implementation-chosen entropy source",
    and "the seed value actually used" is returned. The entropy the
    operating system would supply is the argument [entropy]. *)
Definition seeding_np_random (seed : option Z) (entropy : Z) : rng * Z :=
  let s := default entropy seed in (mk_rng s, s).

Record NChainEnv : Type := {
  n : Z;
  slip : Q;
  small : Z;
  large : Z;
  state : Z;
  action_space : Discrete;
  observation_space : Discrete;
  iters : Z;
  max_iters : Z;
  P : gmap Z (gmap Z (list transition));
  np_random : rng
}.

(** Attribute assignments. *)
Definition set_state (e : NChainEnv) (s : Z) : NChainEnv :=
  {| n := n e; slip := slip e; small := small e; large := large e;
     state := s;
     action_space := action_space e;
     observation_space := observation_space e;
     iters := iters e; max_iters := max_iters e; P := P e;
     np_random := np_random e |}.

Definition set_iters (e : NChainEnv) (i : Z) : NChainEnv :=
  {| n := n e; slip := slip e; small := small e; large := large e;
     state := state e;
     action_space := action_space e;
     observation_space := observation_space e;
     iters := i; max_iters := max_iters e; P := P e;
     np_random := np_random e |}.

Definition set_np_random (e : NChainEnv) (g : rng) : NChainEnv :=
  {| n := n e; slip := slip e; small := small e; large := large e;
     state := state e;
     action_space := action_space e;
     observation_space := observation_space e;
     iters := iters e; max_iters := max_iters e; P := P e;
     np_random := g |}.

(** *** Construction *)

(** The arguments of [__init__]. *)
Record Config : Type := {
  c_n : Z;
  c_slip : Q;
  c_small : Z;
  c_large : Z;
  c_max_iters : Z
}.

(** Body of the inner loop of [__init__]: the list [res] for one state and
    one action. [1-slip] is a subtraction of floats. *)
Definition outcomes (c : Config) (state action : Z) : list transition :=
  let res : list transition := [] in
  let f_reward := 0 in
  let next_state := state + 1 in
  let '(f_reward, next_state) :=
    if state =? c_n c - 1 then (c_large c, state)
    else (f_reward, next_state) in
  if action =? 0 then
    let t1 := (fsub 1 (c_slip c), next_state, f_reward, tt) in
    let t2 := (c_slip c, 0, c_small c, tt) in
    (res ++ [t1]) ++ [t2]
  else
    let t1 := (fsub 1 (c_slip c), 0, c_small c, tt) in
    let t2 := (c_slip c, next_state, f_reward, tt) in
    (res ++ [t1]) ++ [t2].

(** Body of the outer loop: the dictionary [d] of one state, filled for the
    keys of the dictionary [row] the state had before. *)
Definition fill_row (c : Config) (row : gmap Z (list transition))
    (state : Z) : gmap Z (list transition) :=
  foldl (λ d action, <[action := outcomes c state action]> d) ∅ (keys row).

(** [self.P], as set up by [__init__]. *)
Definition build_P (c : Config) : gmap Z (gmap Z (list transition)) :=
  let P0 : gmap Z (gmap Z (list transition)) :=
    dict_comp (λ _, dict_comp (λ _, []) (range 2)) (range (c_n c)) in
  foldl (λ P state, <[state := fill_row c (default ∅ (P !! state)) state]> P)
        P0 (keys P0).

(** [seed(seed=None)]. *)
Definition seed (e : NChainEnv) (seed : option Z) (entropy : Z)
    : list Z * NChainEnv :=
  let '(g, s) := seeding_np_random seed entropy in
  ([s], set_np_random e g).

(** [__init__]; its last statement is [self.seed()], which draws on the
    entropy of the system. *)
Definition init (c : Config) (entropy : Z) : NChainEnv :=
  {| n := c_n c; slip := c_slip c; small := c_small c; large := c_large c;
     state := 0;
     action_space := {| space_n := 2 |};
     observation_space := {| space_n := c_n c |};
     iters := 0; max_iters := c_max_iters c;
     P := build_P c;
     np_random := fst (seeding_np_random None entropy) |}.

(** The default arguments: [n=5, slip=0.2, small=2, large=10,
    max_iters=1000]; 0.2 is the rational the double 0.2 denotes. *)
Definition default_config : Config :=
  {| c_n := 5;
     c_slip := (3602879701896397 # 18014398509481984)%Q;
     c_small := 2; c_large := 10; c_max_iters := 1000 |}.

(** *** step *)

(** Lines 79-86: the move along the chain, given the executed action as a
    truth value; returns [reward]. *)
Definition move (e : NChainEnv) (action : bool) : Z * NChainEnv :=
  if action then (small e, set_state e 0)
  else if state e <? n e - 1 then (0, set_state e (state e + 1))
  else (large e, e).

(** Lines 88-92: the episode counter; returns [done]. *)
Definition tick (e : NChainEnv) : bool * NChainEnv :=
  let done := false in
  let e := set_iters e (iters e + 1) in
  if iters e =? max_iters e then (true, set_iters e 0) else (done, e).

(** Lines 77-94, given the outcome of the test [rand() < self.slip]. *)
Definition step_exec (e : NChainEnv) (action : Z) (slipped : bool)
    : step_result * NChainEnv :=
  let action := if slipped then negb (truthy action) else truthy action in
  let '(reward, e) := move e action in
  let '(done, e) := tick e in
  ((state e, reward, done, ∅), e).

(** [step(action)]. *)
Definition step (e : NChainEnv) (action : Z)
    : outcome step_result * NChainEnv :=
  if negb (contains (action_space e) action) then (Raise AssertionError, e)
  else
    let '(u, g) := rand (np_random e) in
    let e := set_np_random e g in
    let '(r, e) := step_exec e action (Qltb u (slip e)) in
    (Return r, e).

(** [reset()]. *)
Definition reset (e : NChainEnv) : Z * NChainEnv :=
  let e := set_state e 0 in
  (state e, e).

(** *** Runs *)

(** The outcomes of a sequence of [step] calls, in order. *)
Fixpoint run (e : NChainEnv) (actions : list Z)
    : list (outcome step_result) :=
  match actions with
  | [] => []
  | a :: rest => let '(r, e') := step e a in r :: run e' rest
  end.

(** The objects a program can hold: a freshly constructed environment, and
    what any call of [step], [reset] or [seed] leaves of one. *)
Inductive reachable (c : Config) : NChainEnv → Prop :=
| reach_init (w : Z) : reachable c (init c w)
| reach_step (e : NChainEnv) (a : Z) :
    reachable c e → reachable c (snd (step e a))
| reach_reset (e : NChainEnv) :
    reachable c e → reachable c (snd (reset e))
| reach_seed (e : NChainEnv) (s : option Z) (w : Z) :
    reachable c e → reachable c (snd (seed e s w)).

End NChain.

Arguments NChainEnv rng : clear implicits.
Arguments n {rng} e : rename.
Arguments slip {rng} e : rename.
Arguments small {rng} e : rename.
Arguments large {rng} e : rename.
Arguments state {rng} e : rename.
Arguments action_space {rng} e : rename.
Arguments observation_space {rng} e : rename.
Arguments iters {rng} e : rename.
Arguments max_iters {rng} e : rename.
Arguments P {rng} e : rename.
Arguments np_random {rng} e : rename.
Arguments set_state {rng} e s.
Arguments set_iters {rng} e i.
Arguments set_np_random {rng} e g.
Arguments seeding_np_random {rng} mk_rng seed entropy.
Arguments seed {rng} mk_rng e seed entropy.
Arguments init {rng} mk_rng c entropy.
Arguments move {rng} e action.
Arguments tick {rng} e.
Arguments step_exec {rng} e action slipped.
Arguments step {rng} rand e action.
Arguments reset {rng} e.
Arguments run {rng} rand e actions.
Arguments reachable {rng} rand mk_rng c e.

(** ** The transition model as a distribution *)




(** [self.P[s][a]]. *)
Definition P_at {rng : Type} (e : NChainEnv rng) (s a : Z)
    : option (list transition) :=
  P e !! s ≫= λ d, d !! a.




(** What construction fixes for the lifetime of the object. *)
Definition configured {rng : Type} (c : Config) (e : NChainEnv rng) : Prop :=
  n e = c_n c ∧ slip e = c_slip c ∧ small e = c_small c ∧
  large e = c_large c ∧ max_iters e = c_max_iters c ∧
  action_space e = {| space_n := 2 |} ∧
  observation_space e = {| space_n := c_n c |} ∧
  P e = build_P c.

(** ** Environments over two generators *)


(** ** A concrete generator *)

(** A linear congruential generator with draws in thousandths, to run the
    environment on concrete inputs. *)
Definition lcg_rand (g : Z) : Q * Z :=
  (Qmake (g mod 1000) 1000, (1103515245 * g + 12345) mod 2147483648).

Definition lcg_seed (s : Z) : Z := s mod 2147483648.



(** The environment of the docstring's defaults over that generator, seeded
    with 7. *)
Definition demo_env : NChainEnv Z :=
  snd (seed lcg_seed (init lcg_seed default_config 0) (Some 7) 0).

(** An environment one step before the end of its episode: three states,
    no slip, a budget of one step. *)
Definition short_config : Config :=
  {| c_n := 3; c_slip := 0; c_small := 2; c_large := 10; c_max_iters := 1 |}.

Definition demo_short : NChainEnv Z := init lcg_seed short_config 0.

(** The configuration of the spec's scenario. *)
Definition scenario_config : Config :=
  {| c_n := 5; c_slip := 0; c_small := 2; c_large := 10;
     c_max_iters := 1000 |}.

Definition demo_scenario : NChainEnv Z := init lcg_seed scenario_config 0.

(** ** Histories of calls *)

(** One call on an environment: [step(a)], [reset()] or [seed(s)] (with the
    entropy the system would supply). *)
Inductive call : Type :=
| Step (a : Z)
| Reset
| Seed (s : option Z) (w : Z).

(** The object a call leaves behind. *)
Definition call_env {rng : Type} (rand : rng → Q * rng) (mk_rng : Z → rng)
    (e : NChainEnv rng) (k : call) : NChainEnv rng :=
  match k with
  | Step a => snd (step rand e a)
  | Reset => snd (reset e)
  | Seed s w => snd (seed mk_rng e s w)
  end.

(** The object a sequence of calls leaves behind. *)
Definition play {rng : Type} (rand : rng → Q * rng) (mk_rng : Z → rng)
    (e : NChainEnv rng) (ks : list call) : NChainEnv rng :=
  foldl (call_env rand mk_rng) e ks.

(** The actions the assertion of [step] lets through. *)
Definition valid_action (a : Z) : bool := (a =? 0) || (a =? 1).

(** Number of [step] calls of a history whose action is 0 or 1. *)
Definition valid_steps (ks : list call) : Z :=
  foldr (λ k acc, match k with
                  | Step a => if valid_action a then acc + 1 else acc
                  | _ => acc
                  end) 0 ks.

Definition is_seed (k : call) : bool :=
  match k with Seed _ _ => true | _ => false end.

(** A call that returned, as opposed to one that raised. *)
Definition returned {A : Type} (r : outcome A) : bool :=
  match r with Return _ => true | Raise _ => false end.

(** A chain of a single state. *)
Definition unit_config : Config :=
  {| c_n := 1;
     c_slip := (3602879701896397 # 18014398509481984)%Q;
     c_small := 2; c_large := 10; c_max_iters := 1000 |}.

(** A configuration without step budget. *)
Definition endless_config : Config :=
  {| c_n := 5;
     c_slip := (3602879701896397 # 18014398509481984)%Q;
     c_small := 2; c_large := 10; c_max_iters := 0 |}.

(** A configuration that always slips: the slip probability is 1. *)
Definition slippery_config : Config :=
  {| c_n := 5; c_slip := 1; c_small := 2; c_large := 10;
     c_max_iters := 1000 |}.

(** * Verification *)

(** ** Numbers and dictionaries *)

Lemma Qltb_lt (x y : Q) : Qltb x y = true ↔ (x < y)%Q.
Proof. unfold Qltb, Qlt. apply Z.ltb_lt. Qed.

Lemma Qltb_nlt (x y : Q) : Qltb x y = false ↔ ¬ (x < y)%Q.
Proof. rewrite <- Qltb_lt. destruct (Qltb x y); intuition congruence. Qed.

Lemma elem_of_range (k i : Z) : i ∈ range k ↔ 0 ≤ i < k.
Proof. unfold range. rewrite elem_of_seqZ. lia. Qed.

Lemma elem_of_keys {V : Type} (d : gmap Z V) (k : Z) :
  k ∈ keys d ↔ is_Some (d !! k).
Proof. unfold keys. rewrite elem_of_elements. apply elem_of_dom. Qed.

Lemma NoDup_keys {V : Type} (d : gmap Z V) : NoDup (keys d).
Proof. apply NoDup_elements. Qed.

(** Inserting [f k] for each key of a list, whatever the order. *)
Lemma lookup_foldl_insert {V : Type} (f : Z → V) (ks : list Z)
    (d : gmap Z V) (k : Z) :
  foldl (λ d k, <[k := f k]> d) d ks !! k
  = if decide (k ∈ ks) then Some (f k) else d !! k.
Proof.
  revert d. induction ks as [|x ks IH]; intros d; simpl.
  - done.
  - rewrite IH. destruct (decide (k ∈ ks)) as [Hin|Hout].
    + rewrite decide_True; [done | by right].
    + destruct (decide (k = x)) as [->|Hne].
      * rewrite decide_True by left. apply lookup_insert_eq.
      * rewrite decide_False.
        -- by apply lookup_insert_ne.
        -- intros [?|?]%elem_of_cons; done.
Qed.

Lemma lookup_dict_comp {V : Type} (f : Z → V) (ks : list Z) (k : Z) :
  dict_comp f ks !! k = if decide (k ∈ ks) then Some (f k) else None.
Proof. unfold dict_comp. by rewrite lookup_foldl_insert, lookup_empty. Qed.

(** ** Float arithmetic *)

Lemma inject_Z_succ (f : Z) : (inject_Z (f + 1) == inject_Z f + 1)%Q.
Proof. by rewrite inject_Z_plus. Qed.

Lemma inject_Z_pred (f : Z) : (inject_Z (f - 1) == inject_Z f - 1)%Q.
Proof. unfold Z.sub. by rewrite inject_Z_plus. Qed.

Lemma Qfloor_unique (x : Q) (f : Z) :
  (inject_Z f <= x)%Q → (x < inject_Z (f + 1))%Q → Qfloor x = f.
Proof.
  intros Hle Hlt.
  pose proof (Qfloor_le x) as H1. pose proof (Qlt_floor x) as H2.
  assert (Qfloor x < f + 1) as H3.
  { rewrite Zlt_Qlt. eapply Qle_lt_trans; [exact H1 | exact Hlt]. }
  assert (f < Qfloor x + 1) as H4.
  { rewrite Zlt_Qlt. eapply Qle_lt_trans; [exact Hle | exact H2]. }
  lia.
Qed.

Lemma rne_near (x : Q) :
  (- (1 # 2) <= inject_Z (rne x) - x <= 1 # 2)%Q.
Proof.
  unfold rne.
  pose proof (Qfloor_le x) as H1. pose proof (Qlt_floor x) as H2.
  rewrite inject_Z_succ in H2.
  destruct (x - inject_Z (Qfloor x) ?= 1 # 2)%Q eqn:Hc.
  - apply Qeq_alt in Hc.
    destruct (Z.even (Qfloor x)); rewrite ?inject_Z_succ; split; lra.
  - apply Qlt_alt in Hc. split; lra.
  - apply Qgt_alt in Hc. rewrite inject_Z_succ. split; lra.
Qed.

Lemma rne_unique (x : Q) (k : Z) :
  (inject_Z k - (1 # 2) < x)%Q → (x < inject_Z k + (1 # 2))%Q → rne x = k.
Proof.
  intros Hlo Hhi.
  pose proof (Qfloor_le x) as H1. pose proof (Qlt_floor x) as H2.
  rewrite inject_Z_succ in H2.
  assert (Qfloor x < k + 1) as H3.
  { rewrite Zlt_Qlt. rewrite inject_Z_succ. lra. }
  assert (k - 1 < Qfloor x + 1) as H4.
  { rewrite Zlt_Qlt. rewrite inject_Z_succ, inject_Z_pred. lra. }
  assert (Qfloor x = k ∨ Qfloor x = k - 1) as [Hf|Hf] by lia.
  - unfold rne. rewrite Hf in *.
    assert ((x - inject_Z k ?= 1 # 2)%Q = Lt) as ->; [|done].
    apply (proj1 (Qlt_alt _ _)). lra.
  - unfold rne. rewrite Hf in *.
    pose proof (inject_Z_pred k) as He.
    assert ((x - inject_Z (k - 1) ?= 1 # 2)%Q = Gt) as ->; [|lia].
    apply (proj1 (Qgt_alt _ _)). lra.
Qed.

Lemma rne_tie (x : Q) (k : Z) :
  (x == inject_Z k - (1 # 2))%Q → Z.even k = true → rne x = k.
Proof.
  intros Hx Hk.
  pose proof (inject_Z_pred k) as He.
  assert (Qfloor x = k - 1) as Hf.
  { apply Qfloor_unique.
    - lra.
    - replace (k - 1 + 1) with k by lia. lra. }
  unfold rne. rewrite Hf.
  assert ((x - inject_Z (k - 1) ?= 1 # 2)%Q = Eq) as ->.
  { apply (proj1 (Qeq_alt _ _)). lra. }
  rewrite Z.even_sub, Hk. simpl. lia.
Qed.

(** Powers of two. *)

Lemma pow2_pos (e : Z) : (0 < 2 ^ e)%Q.
Proof. by apply Qpower_0_lt. Qed.

Lemma pow2_le (e e' : Z) : e ≤ e' → (2 ^ e <= 2 ^ e')%Q.
Proof. intros H. apply Qpower_le_compat_l; [done|]. by unfold Qle. Qed.

Lemma Qabs_pos_eq (x : Q) : (0 < x)%Q → Qabs x = x.
Proof.
  destruct x as [a b]. unfold Qlt, Qabs. simpl. intros H.
  f_equal. apply Z.abs_eq. lia.
Qed.

(** The exponent of a number below 1. *)
Lemma Qlog2_below_one (x : Q) : (0 < x)%Q → (x < 1)%Q → Qlog2 x ≤ -1.
Proof.
  intros H0 H1. unfold Qlog2.
  assert (Z.log2 (Qnum x) ≤ Z.log2 (Z.pos (Qden x))) as Hl.
  { apply Z.log2_le_mono. unfold Qlt in H1. simpl in H1. lia. }
  set (k := Z.log2 (Qnum x) - Z.log2 (Z.pos (Qden x))) in *.
  destruct (Qle_bool (2 ^ k) x) eqn:Hb; [|lia].
  destruct (Z.eq_dec k 0) as [Hk|Hk]; [|lia].
  rewrite Hk in Hb. apply Qle_bool_iff in Hb.
  change (2 ^ 0)%Q with 1%Q in Hb. lra.
Qed.

Lemma Qlog2_unit (x : Q) : (1 <= x)%Q → (x < 2)%Q → Qlog2 x = 0.
Proof.
  intros H1 H2. unfold Qlog2.
  destruct x as [a b]. unfold Qle, Qlt in H1, H2. simpl in H1, H2.
  cbn [Qnum Qden].
  assert (0 < a) as Ha by lia.
  assert (Z.log2 (Z.pos b) ≤ Z.log2 a) as Hl
    by (apply Z.log2_le_mono; lia).
  assert (Z.log2 a ≤ Z.log2 (2 * Z.pos b)) as Hu
    by (apply Z.log2_le_mono; lia).
  rewrite Z.log2_double in Hu by lia.
  set (k := Z.log2 a - Z.log2 (Z.pos b)) in *.
  assert (k = 0 ∨ k = 1) as Hk by lia. clearbody k.
  destruct Hk as [-> | ->].
  - assert (Qle_bool (2 ^ 0) (a # b) = true) as ->; [|done].
    apply Qle_bool_iff. change (2 ^ 0)%Q with 1%Q. unfold Qle. simpl. lia.
  - assert (Qle_bool (2 ^ 1) (a # b) = false) as ->; [|done].
    apply not_true_is_false. rewrite Qle_bool_iff.
    change (2 ^ 1)%Q with 2%Q. unfold Qle. simpl. lia.
Qed.

Lemma Qlog2_half (x : Q) : (1 # 2 <= x)%Q → (x < 1)%Q → Qlog2 x = -1.
Proof.
  intros H1 H2. unfold Qlog2.
  destruct x as [a b]. unfold Qle, Qlt in H1, H2. simpl in H1, H2.
  cbn [Qnum Qden].
  assert (0 < a) as Ha by lia.
  assert (Z.log2 a ≤ Z.log2 (Z.pos b)) as Hl
    by (apply Z.log2_le_mono; lia).
  assert (Z.log2 (Z.pos b) ≤ Z.log2 (2 * a)) as Hu
    by (apply Z.log2_le_mono; lia).
  rewrite Z.log2_double in Hu by lia.
  set (k := Z.log2 a - Z.log2 (Z.pos b)) in *.
  assert (k = 0 ∨ k = -1) as Hk by lia. clearbody k.
  destruct Hk as [-> | ->].
  - assert (Qle_bool (2 ^ 0) (a # b) = false) as ->; [|done].
    apply not_true_is_false. rewrite Qle_bool_iff.
    change (2 ^ 0)%Q with 1%Q. unfold Qle. simpl. lia.
  - assert (Qle_bool (2 ^ (-1)) (a # b) = true) as ->; [|done].
    apply Qle_bool_iff. change (2 ^ (-1))%Q with (1 # 2)%Q.
    unfold Qle. simpl. lia.
Qed.

(** A number within [2^-54] of 1 rounds to 1: below 1 the spacing of the
    floats is [2^-53] and the tie goes to the even significand of 1. *)

Lemma Qdiv_unit_frac (t : Q) (k : positive) :
  (t / (1 # k) == t * (Z.pos k # 1))%Q.
Proof. unfold Qdiv, Qinv. simpl. reflexivity. Qed.

Lemma round64_near_one (t : Q) :
  (1 - (1 # 18014398509481984) <= t)%Q →
  (t <= 1 + (1 # 18014398509481984))%Q →
  (round64 t == 1)%Q.
Proof.
  intros Hlo Hhi. unfold round64.
  destruct (Qeq_bool t 0) eqn:Hz; [apply Qeq_bool_iff in Hz; lra|].
  rewrite Qabs_pos_eq by lra.
  destruct (Qlt_le_dec t 1) as [Hlt|Hge].
  - rewrite (Qlog2_half t) by lra.
    change (Z.max (-1 - 52) (-1074)) with (-53).
    change (2 ^ (-53))%Q with (1 # 9007199254740992)%Q.
    assert (rne (t / (1 # 9007199254740992)) = 9007199254740992) as ->.
    { destruct (Qlt_le_dec (1 - (1 # 18014398509481984)) t) as [Hin|Htie].
      - apply rne_unique.
        + change (inject_Z 9007199254740992) with (9007199254740992 # 1)%Q.
          rewrite Qdiv_unit_frac. lra.
        + change (inject_Z 9007199254740992) with (9007199254740992 # 1)%Q.
          rewrite Qdiv_unit_frac. lra.
      - apply rne_tie; [|reflexivity].
        change (inject_Z 9007199254740992) with (9007199254740992 # 1)%Q.
        rewrite Qdiv_unit_frac. lra. }
    reflexivity.
  - rewrite (Qlog2_unit t) by lra.
    change (Z.max (0 - 52) (-1074)) with (-52).
    change (2 ^ (-52))%Q with (1 # 4503599627370496)%Q.
    assert (rne (t / (1 # 4503599627370496)) = 4503599627370496) as ->.
    { apply rne_unique.
      - change (inject_Z 4503599627370496) with (4503599627370496 # 1)%Q.
        rewrite Qdiv_unit_frac. lra.
      - change (inject_Z 4503599627370496) with (4503599627370496 # 1)%Q.
        rewrite Qdiv_unit_frac. lra. }
    reflexivity.
Qed.

(** Between 0 and 1 rounding moves a number by at most [2^-54]. *)

Lemma round64_error_unit (d : Q) :
  (0 <= d <= 1)%Q →
  (- (1 # 18014398509481984) <= round64 d - d <= 1 # 18014398509481984)%Q.
Proof.
  intros [H0 H1].
  destruct (Qlt_le_dec d 1) as [Hlt|Hge].
  - unfold round64.
    destruct (Qeq_bool d 0) eqn:Hz; [apply Qeq_bool_iff in Hz; split; lra|].
    assert (0 < d)%Q as Hpos.
    { apply Qeq_bool_neq in Hz. apply Qle_lteq in H0 as [H0|H0]; [done|].
      by symmetry in H0. }
    rewrite Qabs_pos_eq by done.
    pose proof (Qlog2_below_one d Hpos Hlt) as Hl.
    set (e := Z.max (Qlog2 d - 52) (-1074)).
    assert (e ≤ -53) as He by lia.
    pose proof (pow2_pos e) as Hp. pose proof (pow2_le e (-53) He) as Hp'.
    change (2 ^ (-53))%Q with (1 # 9007199254740992)%Q in Hp'.
    set (p := (2 ^ e)%Q) in *.
    pose proof (rne_near (d / p)) as [Hr1 Hr2].
    assert (d == (d / p) * p)%Q as Hd.
    { rewrite Qmult_comm, Qmult_div_r; [reflexivity|lra]. }
    set (y := (d / p)%Q) in *. set (r := inject_Z (rne y)) in *.
    split; nra.
  - rewrite (round64_near_one d) by lra. lra.
Qed.

(** [(1 - s) + s == 1.0] in floats, for [s] between 0 and 1. *)
Lemma fadd_fsub_one (s : Q) :
  (0 <= s <= 1)%Q → (fadd (fsub 1 s) s == 1)%Q.
Proof.
  intros [H0 H1]. unfold fadd, fsub.
  pose proof (round64_error_unit (1 - s)) as [Hlo Hhi]; [split; lra|].
  apply round64_near_one; lra.
Qed.

Lemma pow2_succ (k : Z) : (2 ^ (k + 1) == 2 * 2 ^ k)%Q.
Proof. rewrite Qpower_plus by done. change (2 ^ 1)%Q with 2%Q. ring. Qed.

Lemma pow2_Z (k : Z) : 0 ≤ k → (inject_Z (2 ^ k) == 2 ^ k)%Q.
Proof. intros H. by rewrite (Zpower_Qpower 2 k H). Qed.

Lemma log2_bounds (a : Z) :
  0 < a →
  (2 ^ Z.log2 a <= inject_Z a)%Q ∧ (inject_Z a < 2 * 2 ^ Z.log2 a)%Q.
Proof.
  intros Ha. destruct (Z.log2_spec a Ha) as [H1 H2].
  pose proof (Z.log2_nonneg a) as Hl.
  rewrite <- pow2_succ. rewrite <- !pow2_Z by lia.
  rewrite <- Zle_Qle, <- Zlt_Qlt. unfold Z.succ in H2. done.
Qed.

(** [Qlog2] is the binary exponent: [2^(Qlog2 x) <= x < 2^(Qlog2 x + 1)]. *)
Lemma Qlog2_spec (x : Q) :
  (0 < x)%Q → (2 ^ Qlog2 x <= x)%Q ∧ (x < 2 ^ (Qlog2 x + 1))%Q.
Proof.
  intros Hx. unfold Qlog2.
  assert (0 < Qnum x) as Ha.
  { unfold Qlt in Hx. simpl in Hx. lia. }
  destruct (log2_bounds (Qnum x) Ha) as [HA1 HA2].
  destruct (log2_bounds (Z.pos (Qden x))) as [HB1 HB2]; [lia|].
  set (la := Z.log2 (Qnum x)) in *. set (lb := Z.log2 (Z.pos (Qden x))) in *.
  assert (x * inject_Z (Z.pos (Qden x)) == inject_Z (Qnum x))%Q as HxB.
  { destruct x as [a b]. unfold Qeq. simpl. lia. }
  assert (2 ^ (la - lb) * 2 ^ lb == 2 ^ la)%Q as Hw.
  { rewrite <- Qpower_plus by done. by replace (la - lb + lb) with la by lia. }
  pose proof (pow2_pos la) as HU. pose proof (pow2_pos lb) as HV.
  pose proof (pow2_pos (la - lb)) as HW.
  assert (2 ^ (la - lb - 1 + 1) == 2 ^ (la - lb))%Q as Hk
    by (by replace (la - lb - 1 + 1) with (la - lb) by lia).
  pose proof (pow2_succ (la - lb)) as Hs.
  pose proof (pow2_succ (la - lb - 1)) as Hs'. rewrite Hk in Hs'.
  set (A := inject_Z (Qnum x)) in *.
  set (B := inject_Z (Z.pos (Qden x))) in *.
  set (U := (2 ^ la)%Q) in *. set (V := (2 ^ lb)%Q) in *.
  set (W := (2 ^ (la - lb))%Q) in *.
  destruct (Qle_bool W x) eqn:Hb.
  - apply Qle_bool_iff in Hb. split; [done|]. rewrite Hs. nra.
  - assert (x < W)%Q as Hlt.
    { apply Qnot_le_lt. intros H. apply Qle_bool_iff in H. congruence. }
    rewrite Hk. split; [|done].
    set (W' := (2 ^ (la - lb - 1))%Q) in *. nra.
Qed.

(** [round64 x] is a multiple of the unit in the last place of [x], and no
    multiple of it is nearer to [x]. *)
Lemma round64_nearest (x : Q) :
  let e := Z.max (Qlog2 (Qabs x) - 52) (-1074) in
  ∃ k : Z,
    (round64 x == inject_Z k * 2 ^ e)%Q ∧
    (- ((1 # 2) * 2 ^ e) <= round64 x - x <= (1 # 2) * 2 ^ e)%Q.
Proof.
  cbv zeta. unfold round64.
  set (e := Z.max (Qlog2 (Qabs x) - 52) (-1074)).
  pose proof (pow2_pos e) as Hp. set (p := (2 ^ e)%Q) in *.
  destruct (Qeq_bool x 0) eqn:Hz.
  - apply Qeq_bool_iff in Hz. exists 0.
    change (inject_Z 0) with 0%Q. split; [ring|]. split; lra.
  - exists (rne (x / p)). split; [reflexivity|].
    pose proof (rne_near (x / p)) as [Hr1 Hr2].
    assert (x == (x / p) * p)%Q as Hd.
    { rewrite Qmult_comm, Qmult_div_r; [reflexivity|lra]. }
    set (y := (x / p)%Q) in *. set (r := inject_Z (rne y)) in *.
    split; nra.
Qed.

(** The float operations on the doubles 0.1 and 0.2: [1 - 0.2] is the double
    0.8, [1 - 0.1] the double 0.9, and [0.1 + 0.2] the double
    0.30000000000000004. *)
Example fsub_one_fifth :
  Qred (fsub 1 (3602879701896397 # 18014398509481984))
  = (3602879701896397 # 4503599627370496)%Q.
Proof. vm_compute. reflexivity. Qed.

Example fsub_one_tenth :
  Qred (fsub 1 (3602879701896397 # 36028797018963968))
  = (8106479329266893 # 9007199254740992)%Q.
Proof. vm_compute. reflexivity. Qed.

Example fadd_tenth_fifth :
  Qred (fadd (3602879701896397 # 36028797018963968)
          (3602879701896397 # 18014398509481984))
  = (1351079888211149 # 4503599627370496)%Q.
Proof. vm_compute. reflexivity. Qed.

(** ** The transition table *)

Section Table.
Variable c : Config.

Lemma lookup_fill_row (row : gmap Z (list transition)) (s a : Z) :
  fill_row c row s !! a
  = if decide (is_Some (row !! a)) then Some (outcomes c s a) else None.
Proof.
  unfold fill_row.
  rewrite (lookup_foldl_insert (outcomes c s)), lookup_empty.
  destruct (decide (a ∈ keys row)) as [H|H]; rewrite elem_of_keys in H.
  - by rewrite decide_True.
  - by rewrite decide_False.
Qed.

(** The outer loop replaces the row of each state it visits, and every
    state is visited once. *)
Lemma lookup_fill_rows (row0 : gmap Z (list transition)) (ks : list Z) :
  NoDup ks →
  ∀ (T : gmap Z (gmap Z (list transition))) (s : Z),
    (∀ k, k ∈ ks → T !! k = Some row0) →
    foldl (λ T st, <[st := fill_row c (default ∅ (T !! st)) st]> T) T ks !! s
    = if decide (s ∈ ks) then Some (fill_row c row0 s) else T !! s.
Proof.
  induction 1 as [|x ks Hx Hnd IH]; intros T s HT; simpl.
  - done.
  - rewrite IH.
    + destruct (decide (s ∈ ks)) as [Hin|Hout].
      * rewrite decide_True; [done | by right].
      * destruct (decide (s = x)) as [->|Hne].
        -- rewrite decide_True by left. rewrite lookup_insert_eq.
           by rewrite (HT x) by left.
        -- rewrite decide_False.
           ++ by apply lookup_insert_ne.
           ++ intros [?|?]%elem_of_cons; done.
    + intros k Hk. rewrite lookup_insert_ne.
      * apply HT. by right.
      * intros ->. done.
Qed.

Lemma lookup_build_P (s : Z) :
  build_P c !! s
  = if decide (0 ≤ s < c_n c)
    then Some (fill_row c (dict_comp (λ _, []) (range 2)) s) else None.
Proof.
  unfold build_P.
  rewrite (lookup_fill_rows (dict_comp (λ _, []) (range 2))).
  - destruct (decide (0 ≤ s < c_n c)) as [Hs|Hs].
    + rewrite decide_True; [done|].
      apply elem_of_keys. rewrite lookup_dict_comp.
      rewrite decide_True by (by apply elem_of_range). eauto.
    + rewrite decide_False.
      * rewrite lookup_dict_comp. rewrite decide_False; [done|].
        by rewrite elem_of_range.
      * rewrite elem_of_keys, lookup_dict_comp.
        rewrite decide_False by (by rewrite elem_of_range).
        by intros [? ?].
  - apply NoDup_keys.
  - intros k Hk. apply elem_of_keys in Hk as [row Hrow].
    rewrite lookup_dict_comp in Hrow |- *.
    destruct (decide (k ∈ range (c_n c))); [done | discriminate].
Qed.

(** [P[s][a]] is the list [__init__] computes for [s] and [a]. *)
Lemma build_P_at (s a : Z) :
  0 ≤ s < c_n c → a = 0 ∨ a = 1 →
  build_P c !! s ≫= (λ d, d !! a) = Some (outcomes c s a).
Proof.
  intros Hs Ha. rewrite lookup_build_P, decide_True by done. simpl.
  rewrite lookup_fill_row, decide_True; [done|].
  rewrite lookup_dict_comp, decide_True; [eauto|].
  apply elem_of_range. lia.
Qed.

End Table.

(** ** The protocol *)

Ltac unfold_step :=
  unfold step, step_exec, move, tick, reset, seed, seeding_np_random,
    contains in *; simpl in *.

Ltac case_if :=
  match goal with
  | |- context [if ?b then _ else _] => destruct b eqn:?; simpl in *
  end.

Ltac case_draw rand e u g :=
  destruct (rand (np_random e)) as [u g] eqn:?; simpl in *.

Ltac Z_bools :=
  repeat match goal with
  | H : (_ =? _) = true |- _ => apply Z.eqb_eq in H
  | H : (_ =? _) = false |- _ => apply Z.eqb_neq in H
  | H : (_ <? _) = true |- _ => apply Z.ltb_lt in H
  | H : (_ <? _) = false |- _ => apply Z.ltb_ge in H
  | H : (_ <=? _) = true |- _ => apply Z.leb_le in H
  | H : (_ <=? _) = false |- _ => apply Z.leb_gt in H
  | H : Qltb _ _ = true |- _ => apply Qltb_lt in H
  | H : Qltb _ _ = false |- _ => apply Qltb_nlt in H
  end.

Section Protocol.
Context {rng : Type} (rand : rng → Q * rng) (mk_rng : Z → rng).
Implicit Types (e : NChainEnv rng) (c : Config) (a : Z).

(** The action space of a configured environment holds 0 and 1 only. *)
Lemma contains_action c e a :
  configured c e →
  contains (action_space e) a = true ↔ a = 0 ∨ a = 1.
Proof.
  intros (_ & _ & _ & _ & _ & -> & _). unfold contains. simpl.
  rewrite andb_true_iff, Z.leb_le, Z.ltb_lt. lia.
Qed.

Lemma init_configured c (w : Z) : configured c (init mk_rng c w).
Proof. by repeat split. Qed.

Lemma step_configured c e a :
  configured c e → configured c (snd (step rand e a)).
Proof.
  intros H. unfold_step. case_if; [done|].
  case_draw rand e u g. repeat case_if; exact H.
Qed.

Lemma reset_configured c e : configured c e → configured c (snd (reset e)).
Proof. intros H. exact H. Qed.

Lemma seed_configured c e (s : option Z) (w : Z) :
  configured c e → configured c (snd (seed mk_rng e s w)).
Proof. intros H. exact H. Qed.

Lemma reachable_configured c e : reachable rand mk_rng c e → configured c e.
Proof.
  induction 1; auto using init_configured, step_configured,
    reset_configured, seed_configured.
Qed.

(** A call with a valid action: the draw, then lines 77-94. *)
Lemma step_valid c e a :
  configured c e → a = 0 ∨ a = 1 →
  step rand e a
  = let e1 := set_np_random e (snd (rand (np_random e))) in
    let r := step_exec e1 a (Qltb (fst (rand (np_random e))) (slip e)) in
    (Return (fst r), snd r).
Proof.
  intros Hc Ha. apply (contains_action c e a Hc) in Ha.
  unfold step. rewrite Ha. simpl.
  destruct (rand (np_random e)) as [u g]. simpl.
  by destruct (step_exec _ _ _).
Qed.

(** Lines 77-94 in terms of their two blocks. *)
Lemma step_exec_eq e a (slipped : bool) :
  step_exec e a slipped
  = let x := if slipped then negb (truthy a) else truthy a in
    let m := move e x in
    let t := tick (snd m) in
    ((state (snd t), fst m, fst t, ∅), snd t).
Proof.
  unfold step_exec. simpl.
  destruct (move e _) as [reward e1]. simpl. by destruct (tick e1).
Qed.

(** The move touches the chain position only. *)
Lemma move_frame e (x : bool) :
  iters (snd (move e x)) = iters e ∧
  max_iters (snd (move e x)) = max_iters e ∧
  np_random (snd (move e x)) = np_random e.
Proof. unfold move. by repeat case_if. Qed.

(** The counter touches the step counter only. *)
Lemma tick_state e : state (snd (tick e)) = state e.
Proof. unfold tick. by case_if. Qed.

(** The chain position stays on the chain. *)
Lemma reachable_state c e :
  1 ≤ c_n c → reachable rand mk_rng c e → 0 ≤ state e < c_n c.
Proof.
  intros Hn. induction 1 as [w|e a Hr IH|e Hr IH|e s w Hr IH].
  - simpl. lia.
  - apply reachable_configured in Hr as (Hcn & _).
    unfold_step. case_if; [done|]. case_draw rand e u g.
    repeat case_if; Z_bools; lia.
  - simpl. lia.
  - exact IH.
Qed.

(** The step counter stays below the budget. *)
Lemma reachable_iters c e :
  1 ≤ c_max_iters c → reachable rand mk_rng c e →
  0 ≤ iters e < c_max_iters c.
Proof.
  intros Hm. induction 1 as [w|e a Hr IH|e Hr IH|e s w Hr IH].
  - simpl. lia.
  - apply reachable_configured in Hr as (_ & _ & _ & _ & Hmax & _).
    unfold_step. case_if; [done|]. case_draw rand e u g.
    repeat case_if; Z_bools; lia.
  - exact IH.
  - exact IH.
Qed.

(** C1: a call of [step] with a requested action in {0,1} takes one draw
    [u] from the environment's generator; the executed action is the
    negation of the requested one when [u < slip] and the requested one
    otherwise; a backward move (1) pays [small] and returns to state 0, a
    forward move (0) below the last state pays 0 and advances by one, and a
    forward move on the last state pays [large] and stays. *)
Theorem step_executes c e a :
  reachable rand mk_rng c e → a = 0 ∨ a = 1 →
  ∃ (executed reward : Z) (done : bool) (e' : NChainEnv rng),
    step rand e a = (Return (state e', reward, done, ∅), e') ∧
    np_random e' = snd (rand (np_random e)) ∧
    ((fst (rand (np_random e)) < slip e)%Q → executed = 1 - a) ∧
    (¬ (fst (rand (np_random e)) < slip e)%Q → executed = a) ∧
    (executed = 1 → reward = small e ∧ state e' = 0) ∧
    (executed = 0 → state e < n e - 1 →
       reward = 0 ∧ state e' = state e + 1) ∧
    (executed = 0 → state e = n e - 1 →
       reward = large e ∧ state e' = state e).
Proof.
  intros Hr Ha. apply reachable_configured in Hr as Hc.
  rewrite (step_valid c e a Hc Ha).
  case_draw rand e u g. rewrite step_exec_eq. simpl.
  set (x := if Qltb u (slip e) then negb (truthy a) else truthy a).
  exists (if x then 1 else 0), (fst (move (set_np_random e g) x)),
    (fst (tick (snd (move (set_np_random e g) x)))),
    (snd (tick (snd (move (set_np_random e g) x)))).
  split; [reflexivity|].
  subst x. unfold move, tick.
  destruct (Qltb u (slip e)) eqn:Hslip; destruct Ha as [-> | ->]; simpl;
    repeat case_if; Z_bools; repeat split; intros;
    try done; try contradiction; lia.
Qed.

(** C2: a valid call of [step] increments [iters] by one after the move;
    [done] is returned true exactly when the incremented counter equals
    [max_iters], and then the counter is back at 0 when [step] returns;
    otherwise the counter keeps the incremented value. With a positive
    budget the counter of an environment in use therefore stays below
    [max_iters]: it never reaches [max_iters + 1]. *)
Theorem step_counts c e a :
  reachable rand mk_rng c e → a = 0 ∨ a = 1 →
  ∃ (obs reward : Z) (done : bool) (e' : NChainEnv rng),
    step rand e a = (Return (obs, reward, done, ∅), e') ∧
    (∃ executed : bool,
       e' = snd (tick (snd (move
              (set_np_random e (snd (rand (np_random e)))) executed)))) ∧
    (done = true ↔ iters e + 1 = max_iters e) ∧
    (done = true → iters e' = 0) ∧
    (done = false → iters e' = iters e + 1) ∧
    (1 ≤ max_iters e →
       0 ≤ iters e < max_iters e ∧ 0 ≤ iters e' < max_iters e ∧
       iters e' ≠ max_iters e + 1).
Proof.
  intros Hr Ha. apply reachable_configured in Hr as Hc.
  assert (1 ≤ max_iters e → 0 ≤ iters e < max_iters e) as Hb.
  { destruct Hc as (_ & _ & _ & _ & Hmax & _). rewrite Hmax. intros Hm.
    by apply (reachable_iters c e). }
  rewrite (step_valid c e a Hc Ha).
  case_draw rand e u g. rewrite step_exec_eq. simpl.
  set (x := if Qltb u (slip e) then negb (truthy a) else truthy a).
  set (e1 := snd (move (set_np_random e g) x)).
  exists (state (snd (tick e1))), (fst (move (set_np_random e g) x)),
    (fst (tick e1)), (snd (tick e1)).
  split; [reflexivity|]. split; [by exists x|].
  destruct (move_frame (set_np_random e g) x) as (Hi & Hm & _).
  fold e1 in Hi, Hm. simpl in Hi, Hm.
  unfold tick. simpl. rewrite Hi, Hm.
  destruct (iters e + 1 =? max_iters e) eqn:Hd; Z_bools; simpl;
    repeat split; intros; try done; lia.
Qed.

(** C3: a call of [step] with an action outside {0,1} fails the assertion
    of line 76 (the spec's InvalidAction) before anything else happens: the
    object after the call is the object before the call, in particular its
    chain position, its step counter and its generator. *)
Theorem step_invalid c e a :
  reachable rand mk_rng c e → a ≠ 0 → a ≠ 1 →
  step rand e a = (Raise AssertionError, e) ∧
  state (snd (step rand e a)) = state e ∧
  iters (snd (step rand e a)) = iters e ∧
  np_random (snd (step rand e a)) = np_random e.
Proof.
  intros Hr H0 H1. apply reachable_configured in Hr as Hc.
  assert (contains (action_space e) a = false) as Hna.
  { apply not_true_is_false. rewrite (contains_action c e a Hc). lia. }
  unfold step. by rewrite Hna.
Qed.

(** C4: [reset] sets the chain position to 0, returns 0 and leaves every
    other attribute as it was, the step counter and the generator among
    them. [seed] does not touch the counter either, and a call of [step]
    puts the counter back to 0 only together with [done = true], when the
    incremented counter equals [max_iters]; otherwise it increments the
    counter, or, when it raises, leaves it. *)
Theorem reset_frame e :
  reset e = (0, set_state e 0) ∧
  state (snd (reset e)) = 0 ∧
  iters (snd (reset e)) = iters e ∧
  np_random (snd (reset e)) = np_random e ∧
  (n (snd (reset e)) = n e ∧ slip (snd (reset e)) = slip e ∧
   small (snd (reset e)) = small e ∧ large (snd (reset e)) = large e ∧
   max_iters (snd (reset e)) = max_iters e ∧ P (snd (reset e)) = P e ∧
   action_space (snd (reset e)) = action_space e ∧
   observation_space (snd (reset e)) = observation_space e) ∧
  (∀ (s : option Z) (w : Z), iters (snd (seed mk_rng e s w)) = iters e) ∧
  (∀ a (r : outcome step_result) (e' : NChainEnv rng),
     step rand e a = (r, e') →
     (r = Raise AssertionError ∧ iters e' = iters e) ∨
     (∃ obs reward : Z, r = Return (obs, reward, false, ∅) ∧
        iters e + 1 ≠ max_iters e ∧ iters e' = iters e + 1) ∨
     (∃ obs reward : Z, r = Return (obs, reward, true, ∅) ∧
        iters e + 1 = max_iters e ∧ iters e' = 0)).
Proof.
  repeat split.
  intros a r e' Hstep. unfold step in Hstep.
  destruct (contains (action_space e) a).
  - simpl in Hstep. case_draw rand e u g.
    rewrite step_exec_eq in Hstep. simpl in Hstep.
    set (x := if Qltb u (slip e) then negb (truthy a) else truthy a) in *.
    destruct (move_frame (set_np_random e g) x) as (Hi & Hm & _).
    simpl in Hi, Hm. unfold tick in Hstep. simpl in Hstep.
    rewrite Hi, Hm in Hstep. right.
    destruct (iters e + 1 =? max_iters e) eqn:Hd; Z_bools;
      inversion Hstep; subst; simpl; [right | left];
      do 2 eexists; (split; [reflexivity|]); simpl; lia.
  - simpl in Hstep. inversion Hstep; subst. by left.
Qed.

(** C5: with a chain of at least one state, the chain position of an
    environment lies in [0, n): after construction and after any sequence
    of [step], [reset] and [seed] calls, whatever the generator draws. *)
Theorem state_in_range c e :
  1 ≤ c_n c → reachable rand mk_rng c e → 0 ≤ state e < n e.
Proof.
  intros Hn Hr. apply reachable_configured in Hr as Hc.
  destruct Hc as (-> & _). by apply reachable_state.
Qed.

(** C10: on the call of [step] that returns [done = true] the chain
    position is the one the move of that very call produced from the
    position before (0 after a backward move, one further or the last state
    after a forward move); the counter is back at 0, the position is not.
    The next call of [step] moves on from that position. *)
Theorem done_keeps_state c e a :
  reachable rand mk_rng c e → a = 0 ∨ a = 1 →
  iters e + 1 = max_iters e →
  ∃ (reward : Z) (e' : NChainEnv rng),
    let x := if Qltb (fst (rand (np_random e))) (slip e)
             then negb (truthy a) else truthy a in
    step rand e a = (Return (state e', reward, true, ∅), e') ∧
    state e' = (if x then 0
                else if state e <? n e - 1 then state e + 1 else state e) ∧
    iters e' = 0 ∧
    ∀ a2 : Z, a2 = 0 ∨ a2 = 1 →
      ∃ (r2 : Z) (d2 : bool) (e'' : NChainEnv rng),
        let x2 := if Qltb (fst (rand (np_random e'))) (slip e')
                  then negb (truthy a2) else truthy a2 in
        step rand e' a2 = (Return (state e'', r2, d2, ∅), e'') ∧
        state e'' = (if x2 then 0
                     else if state e' <? n e - 1 then state e' + 1
                          else state e').
Proof.
  intros Hr Ha Hd. apply reachable_configured in Hr as Hc.
  assert (reachable rand mk_rng c (snd (step rand e a))) as Hr'
    by by constructor.
  apply reachable_configured in Hr' as Hc'.
  rewrite (step_valid c e a Hc Ha) in Hc' |- *. cbv zeta in Hc' |- *.
  rewrite step_exec_eq in Hc' |- *. cbv zeta in Hc' |- *.
  cbn [fst snd] in Hc' |- *.
  set (x := if Qltb (fst (rand (np_random e))) (slip e)
            then negb (truthy a) else truthy a) in *.
  set (e0 := set_np_random e (snd (rand (np_random e)))) in *.
  destruct (move_frame e0 x) as (Hi & Hm & _). simpl in Hi, Hm.
  assert (tick (snd (move e0 x))
          = (true, set_iters (set_iters (snd (move e0 x)) (iters e + 1)) 0))
    as Ht.
  { unfold tick. simpl. rewrite Hi, Hm.
    by rewrite (proj2 (Z.eqb_eq _ _) Hd). }
  rewrite Ht in Hc' |- *. cbn [fst snd] in Hc' |- *.
  set (e' := set_iters (set_iters (snd (move e0 x)) (iters e + 1)) 0) in *.
  exists (fst (move e0 x)), e'.
  split; [reflexivity|]. split; [|split; [reflexivity|]].
  - subst e' e0. unfold move. by repeat case_if.
  - intros a2 Ha2. rewrite (step_valid c e' a2 Hc' Ha2). cbv zeta.
    rewrite step_exec_eq. cbv zeta. cbn [fst snd].
    set (x2 := if Qltb _ _ then _ else _).
    set (e1 := set_np_random e' _).
    exists (fst (move e1 x2)), (fst (tick (snd (move e1 x2)))),
      (snd (tick (snd (move e1 x2)))).
    split; [reflexivity|].
    assert (n e' = n e) as <-.
    { destruct Hc as (-> & _), Hc' as (-> & _). done. }
    subst e1. unfold tick, move. by repeat case_if.
Qed.

(** ** The table and the dynamics *)

Lemma reachable_P_at c e (s a : Z) :
  reachable rand mk_rng c e → 0 ≤ s < n e → a = 0 ∨ a = 1 →
  P_at e s a = Some (outcomes c s a).
Proof.
  intros Hr Hs Ha.
  apply reachable_configured in Hr as (Hn & _ & _ & _ & _ & _ & _ & HP).
  unfold P_at. rewrite HP. apply build_P_at; [lia | done].
Qed.

(** C7: for every state of the chain and each of the two actions, the
    table of a constructed environment holds a list of exactly two
    entries [(probability, next_state, reward, None)], with probabilities
    the float [1 - slip] and [slip]; for a slip probability between 0 and 1
    their sum, as a sum of floats, is 1.0. *)
Theorem table_two_outcomes c e (s a : Z) :
  reachable rand mk_rng c e → 0 ≤ s < n e → a = 0 ∨ a = 1 →
  ∃ (l : list transition) (s1 r1 s2 r2 : Z),
    P_at e s a = Some l ∧ length l = 2%nat ∧
    l = [(fsub 1 (slip e), s1, r1, tt); (slip e, s2, r2, tt)] ∧
    ((0 <= slip e <= 1)%Q → (fadd (fsub 1 (slip e)) (slip e) == 1)%Q).
Proof.
  intros Hr Hs Ha. rewrite (reachable_P_at c e s a Hr Hs Ha).
  apply reachable_configured in Hr as (_ & -> & _).
  unfold outcomes.
  destruct (s =? c_n c - 1), (a =? 0); simpl;
    do 5 eexists; (split; [reflexivity|]);
    (split; [reflexivity|]); (split; [reflexivity|]);
    apply fadd_fsub_one.
Qed.




(** ** A run without slip *)

Lemma no_slip (u t : Q) : (0 <= u)%Q → (t == 0)%Q → Qltb u t = false.
Proof.
  intros Hu Ht. apply Qltb_nlt. rewrite Ht. by apply Qle_not_lt.
Qed.

Lemma run_cons e a (rest : list Z) :
  run rand e (a :: rest)
  = fst (step rand e a) :: run rand (snd (step rand e a)) rest.
Proof. simpl. by destruct (step rand e a). Qed.

(** A call that does not exhaust the budget, without slip: the executed
    action is the requested one and [done] is false. *)
Lemma step_no_slip c e a :
  reachable rand mk_rng c e → (c_slip c == 0)%Q →
  (∀ g : rng, (0 <= fst (rand g))%Q) →
  a = 0 ∨ a = 1 → iters e + 1 ≠ max_iters e →
  ∃ (reward : Z) (e' : NChainEnv rng),
    step rand e a = (Return (state e', reward, false, ∅), e') ∧
    reachable rand mk_rng c e' ∧
    iters e' = iters e + 1 ∧ max_iters e' = max_iters e ∧
    state e' = (if truthy a then 0
                else if state e <? c_n c - 1 then state e + 1
                     else state e) ∧
    reward = (if truthy a then c_small c
              else if state e <? c_n c - 1 then 0 else c_large c).
Proof.
  intros Hr Hsl Hnn Ha Hit.
  assert (reachable rand mk_rng c (snd (step rand e a))) as Hr'
    by by constructor.
  apply reachable_configured in Hr as Hc.
  rewrite (step_valid c e a Hc Ha) in Hr' |- *. cbv zeta in Hr' |- *.
  destruct Hc as (Hn & Hs & Hsm & Hla & _).
  rewrite (no_slip _ (slip e)) in Hr' |- * by (by rewrite ?Hs).
  rewrite step_exec_eq in Hr' |- *. cbv zeta in Hr' |- *.
  cbn [fst snd] in Hr' |- *.
  set (e0 := set_np_random e (snd (rand (np_random e)))) in *.
  destruct (move_frame e0 (truthy a)) as (Hi & Hm & _). simpl in Hi, Hm.
  assert (tick (snd (move e0 (truthy a)))
          = (false, set_iters (snd (move e0 (truthy a))) (iters e + 1)))
    as Ht.
  { unfold tick. simpl. rewrite Hi, Hm.
    by rewrite (proj2 (Z.eqb_neq _ _) Hit). }
  rewrite Ht in Hr' |- *. cbn [fst snd] in Hr' |- *.
  do 2 eexists. split; [reflexivity|]. split; [exact Hr'|].
  simpl. rewrite Hm, <- Hn, <- Hsm, <- Hla. subst e0. unfold move.
  destruct (truthy a); [done|]. simpl. by case_if.
Qed.

(** C8: with [n=5], [slip=0], [small=2], [large=10] and a generator whose
    draws are not negative, right after [reset()] (which returns 0) and
    with at least six steps left before [max_iters], the calls [step(0)]
    five times and then [step(1)] return [(1, 0, False, {})],
    [(2, 0, False, {})], [(3, 0, False, {})], [(4, 0, False, {})],
    [(4, 10, False, {})] and [(0, 2, False, {})]. *)
Theorem reset_then_six_steps c e :
  reachable rand mk_rng c e →
  c_n c = 5 → (c_slip c == 0)%Q → c_small c = 2 → c_large c = 10 →
  (∀ g : rng, (0 <= fst (rand g))%Q) →
  iters e + 6 < max_iters e →
  fst (reset e) = 0 ∧
  run rand (snd (reset e)) [0; 0; 0; 0; 0; 1]
  = [Return (1, 0, false, ∅); Return (2, 0, false, ∅);
     Return (3, 0, false, ∅); Return (4, 0, false, ∅);
     Return (4, 10, false, ∅); Return (0, 2, false, ∅)].
Proof.
  intros Hr Hn Hsl Hsm Hla Hnn Hit. split; [reflexivity|].
  assert (reachable rand mk_rng c (snd (reset e))) as Hr0
    by by constructor.
  assert (state (snd (reset e)) = 0 ∧ iters (snd (reset e)) = iters e ∧
          max_iters (snd (reset e)) = max_iters e) as (Hs0 & Hi0 & Hm0)
    by done.
  revert Hr0 Hs0 Hi0 Hm0. generalize (snd (reset e)). intros e0 **.
  destruct (step_no_slip c e0 0 Hr0 Hsl Hnn) as
    (r1 & e1 & E1 & Hr1 & Hi1 & Hm1 & Hs1 & ->); [by left | lia |].
  destruct (step_no_slip c e1 0 Hr1 Hsl Hnn) as
    (r2 & e2 & E2 & Hr2 & Hi2 & Hm2 & Hs2 & ->); [by left | lia |].
  destruct (step_no_slip c e2 0 Hr2 Hsl Hnn) as
    (r3 & e3 & E3 & Hr3 & Hi3 & Hm3 & Hs3 & ->); [by left | lia |].
  destruct (step_no_slip c e3 0 Hr3 Hsl Hnn) as
    (r4 & e4 & E4 & Hr4 & Hi4 & Hm4 & Hs4 & ->); [by left | lia |].
  destruct (step_no_slip c e4 0 Hr4 Hsl Hnn) as
    (r5 & e5 & E5 & Hr5 & Hi5 & Hm5 & Hs5 & ->); [by left | lia |].
  destruct (step_no_slip c e5 1 Hr5 Hsl Hnn) as
    (r6 & e6 & E6 & Hr6 & Hi6 & Hm6 & Hs6 & ->); [by right | lia |].
  rewrite !run_cons, E1. cbn [fst snd]. rewrite E2. cbn [fst snd].
  rewrite E3. cbn [fst snd]. rewrite E4. cbn [fst snd].
  rewrite E5. cbn [fst snd]. rewrite E6. cbn [fst snd run].
  rewrite Hn, Hsm, Hla in *. simpl in *.
  rewrite Hs0 in *. simpl in *. rewrite Hs1 in *. simpl in *.
  rewrite Hs2 in *. simpl in *. rewrite Hs3 in *. simpl in *.
  rewrite Hs4 in *. simpl in *. rewrite Hs5 in *. simpl in *.
  by rewrite Hs6.
Qed.

End Protocol.

(** ** Two runs *)

Section Determinism.
Context {rng1 rng2 : Type}.
Context (rand1 : rng1 → Q * rng1) (mk_rng1 : Z → rng1).
Context (rand2 : rng2 → Q * rng2) (mk_rng2 : Z → rng2).
Context (R : rng1 → rng2 → Prop).




End Determinism.

(** ** The theorems at concrete environments *)

Lemma demo_reachable : reachable lcg_rand lcg_seed default_config demo_env.
Proof. apply reach_seed, reach_init. Qed.

Lemma lcg_rand_nonneg (g : Z) : (0 <= fst (lcg_rand g))%Q.
Proof.
  unfold lcg_rand, Qle. simpl.
  pose proof (Z.mod_pos_bound g 1000). lia.
Qed.

Lemma step_executes_witness :
  ∃ (executed reward : Z) (done : bool) (e' : NChainEnv Z),
    step lcg_rand demo_env 0 = (Return (state e', reward, done, ∅), e') ∧
    np_random e' = snd (lcg_rand (np_random demo_env)) ∧
    ((fst (lcg_rand (np_random demo_env)) < slip demo_env)%Q →
       executed = 1 - 0) ∧
    (¬ (fst (lcg_rand (np_random demo_env)) < slip demo_env)%Q →
       executed = 0) ∧
    (executed = 1 → reward = small demo_env ∧ state e' = 0) ∧
    (executed = 0 → state demo_env < n demo_env - 1 →
       reward = 0 ∧ state e' = state demo_env + 1) ∧
    (executed = 0 → state demo_env = n demo_env - 1 →
       reward = large demo_env ∧ state e' = state demo_env).
Proof.
  apply (step_executes lcg_rand lcg_seed default_config demo_env 0).
  - exact demo_reachable.
  - left. reflexivity.
Defined.

Lemma step_counts_witness :
  ∃ (obs reward : Z) (done : bool) (e' : NChainEnv Z),
    step lcg_rand demo_env 1 = (Return (obs, reward, done, ∅), e') ∧
    (∃ executed : bool,
       e' = snd (tick (snd (move
              (set_np_random demo_env (snd (lcg_rand (np_random demo_env))))
              executed)))) ∧
    (done = true ↔ iters demo_env + 1 = max_iters demo_env) ∧
    (done = true → iters e' = 0) ∧
    (done = false → iters e' = iters demo_env + 1) ∧
    (1 ≤ max_iters demo_env →
       0 ≤ iters demo_env < max_iters demo_env ∧
       0 ≤ iters e' < max_iters demo_env ∧
       iters e' ≠ max_iters demo_env + 1).
Proof.
  apply (step_counts lcg_rand lcg_seed default_config demo_env 1).
  - exact demo_reachable.
  - right. reflexivity.
Defined.

Lemma step_invalid_witness :
  step lcg_rand demo_env 2 = (Raise AssertionError, demo_env) ∧
  state (snd (step lcg_rand demo_env 2)) = state demo_env ∧
  iters (snd (step lcg_rand demo_env 2)) = iters demo_env ∧
  np_random (snd (step lcg_rand demo_env 2)) = np_random demo_env.
Proof.
  apply (step_invalid lcg_rand lcg_seed default_config demo_env 2).
  - exact demo_reachable.
  - lia.
  - lia.
Defined.

Lemma state_in_range_witness :
  0 ≤ state (snd (step lcg_rand demo_env 0))
    < n (snd (step lcg_rand demo_env 0)).
Proof.
  apply (state_in_range lcg_rand lcg_seed default_config).
  - simpl. lia.
  - apply reach_step. exact demo_reachable.
Defined.




Lemma table_two_outcomes_witness :
  ∃ (l : list transition) (s1 r1 s2 r2 : Z),
    P_at demo_env 4 1 = Some l ∧ length l = 2%nat ∧
    l = [(fsub 1 (slip demo_env), s1, r1, tt);
         (slip demo_env, s2, r2, tt)] ∧
    ((0 <= slip demo_env <= 1)%Q →
     (fadd (fsub 1 (slip demo_env)) (slip demo_env) == 1)%Q).
Proof.
  apply (table_two_outcomes lcg_rand lcg_seed default_config demo_env 4 1).
  - exact demo_reachable.
  - simpl. lia.
  - right. reflexivity.
Defined.

Lemma reset_then_six_steps_witness :
  fst (reset demo_scenario) = 0 ∧
  run lcg_rand (snd (reset demo_scenario)) [0; 0; 0; 0; 0; 1]
  = [Return (1, 0, false, ∅); Return (2, 0, false, ∅);
     Return (3, 0, false, ∅); Return (4, 0, false, ∅);
     Return (4, 10, false, ∅); Return (0, 2, false, ∅)].
Proof.
  apply (reset_then_six_steps lcg_rand lcg_seed scenario_config demo_scenario).
  - apply reach_init.
  - reflexivity.
  - reflexivity.
  - reflexivity.
  - reflexivity.
  - exact lcg_rand_nonneg.
  - simpl. lia.
Defined.

Lemma done_keeps_state_witness :
  ∃ (reward : Z) (e' : NChainEnv Z),
    let x := if Qltb (fst (lcg_rand (np_random demo_short))) (slip demo_short)
             then negb (truthy 0) else truthy 0 in
    step lcg_rand demo_short 0 = (Return (state e', reward, true, ∅), e') ∧
    state e' = (if x then 0
                else if state demo_short <? n demo_short - 1
                     then state demo_short + 1 else state demo_short) ∧
    iters e' = 0 ∧
    ∀ a2 : Z, a2 = 0 ∨ a2 = 1 →
      ∃ (r2 : Z) (d2 : bool) (e'' : NChainEnv Z),
        let x2 := if Qltb (fst (lcg_rand (np_random e'))) (slip e')
                  then negb (truthy a2) else truthy a2 in
        step lcg_rand e' a2 = (Return (state e'', r2, d2, ∅), e'') ∧
        state e'' = (if x2 then 0
                     else if state e' <? n demo_short - 1 then state e' + 1
                          else state e').
Proof.
  apply (done_keeps_state lcg_rand lcg_seed short_config demo_short 0).
  - apply reach_init.
  - left. reflexivity.
  - reflexivity.
Defined.

(** The position at the end of an episode is the one the last move reached:
    from state 0 the forward step that exhausts the budget of [demo_short]
    returns state 1 with [done] set, and the next forward step, without any
    [reset], returns state 2. *)
Example done_then_step :
  run lcg_rand demo_short [0; 0]
  = [Return (1, 0, true, ∅); Return (2, 0, true, ∅)].
Proof. vm_compute. reflexivity. Qed.

(** The table of the defaults at state 4 under the backward action, with
    its probabilities in lowest terms: the doubles 0.8 and 0.2. *)
Example table_at_defaults :
  (λ '(p, s', r, _), (Qred p, s', r)) <$> default [] (P_at demo_env 4 1)
  = [((3602879701896397 # 4503599627370496)%Q, 0, 2);
     ((3602879701896397 # 18014398509481984)%Q, 4, 10)].
Proof. vm_compute. reflexivity. Qed.

(** From the defaults seeded with 7 the first draw is below the slip
    probability: the requested forward move is executed backward. *)
Example slipped_step :
  fst (step lcg_rand demo_env 0) = Return (0, 2, false, ∅).
Proof. vm_compute. reflexivity. Qed.

(** [reset] in the middle of an episode leaves the counter where it is. *)
Example reset_keeps_counter :
  iters (snd (reset (snd (step lcg_rand demo_env 0)))) = 1.
Proof. vm_compute. reflexivity. Qed.

(** * Further properties *)

(** ** The table as a dictionary *)

Section TableShape.
Variable c : Config.

Lemma P_keys_in_range (s a : Z) :
  is_Some (build_P c !! s ≫= λ d, d !! a)
  → 0 ≤ s < c_n c ∧ (a = 0 ∨ a = 1).
Proof.
  rewrite lookup_build_P. destruct (decide (0 ≤ s < c_n c)) as [Hs|Hs]; simpl.
  - rewrite lookup_fill_row, lookup_dict_comp.
    destruct (decide (a ∈ range 2)) as [Ha|Ha]; rewrite elem_of_range in Ha.
    + intros _. split; [done | lia].
    + rewrite decide_False by (by intros [? ?]). by intros [? ?].
  - by intros [? ?].
Qed.

(** X1: [P[s][a]] exists exactly for the states [0 <= s < n] and the actions
    0 and 1; any other pair of keys is missing from the table. *)
Theorem table_domain (s a : Z) :
  is_Some (build_P c !! s ≫= λ d, d !! a)
  ↔ 0 ≤ s < c_n c ∧ (a = 0 ∨ a = 1).
Proof.
  rewrite lookup_build_P. destruct (decide (0 ≤ s < c_n c)) as [Hs|Hs]; simpl.
  - rewrite lookup_fill_row, lookup_dict_comp.
    destruct (decide (a ∈ range 2)) as [Ha|Ha]; rewrite elem_of_range in Ha.
    + rewrite decide_True by eauto. split; [|by eauto].
      intros _. split; [done | lia].
    + rewrite decide_False by (by intros [? ?]).
      split; [by intros [? ?] | lia].
  - split; [by intros [? ?] | tauto].
Qed.

(** X2: for a state [s] of the chain, [P[s][0]] lists the forward outcome
    (next state [min(s+1, n-1)], reward [large] on the last state and 0
    elsewhere) with probability the float [1 - slip] and then the return to
    state 0 with reward [small] and probability [slip]; [P[s][1]] lists the
    same two outcomes in the other order, with the probabilities
    exchanged. *)
Theorem table_entries (s : Z) :
  0 ≤ s < c_n c →
  let forward := (Z.min (s + 1) (c_n c - 1),
                  if s =? c_n c - 1 then c_large c else 0) in
  build_P c !! s ≫= (λ d, d !! 0)
  = Some [(fsub 1 (c_slip c), fst forward, snd forward, tt);
          (c_slip c, 0, c_small c, tt)] ∧
  build_P c !! s ≫= (λ d, d !! 1)
  = Some [(fsub 1 (c_slip c), 0, c_small c, tt);
          (c_slip c, fst forward, snd forward, tt)].
Proof.
  intros Hs. cbv zeta.
  split;
    (etrans; [apply build_P_at; lia|]);
    unfold outcomes; simpl;
    destruct (s =? c_n c - 1) eqn:He; Z_bools; simpl.
  - rewrite Z.min_r by lia. by rewrite <- He.
  - by rewrite Z.min_l by lia.
  - rewrite Z.min_r by lia. by rewrite <- He.
  - by rewrite Z.min_l by lia.
Qed.

(** X3: the table is closed: the next state of every entry is again a state
    of the chain, with a row of its own in the table. *)
Theorem table_closed (s a : Z) (l : list transition) (p : Q) (s' r : Z) :
  build_P c !! s ≫= (λ d, d !! a) = Some l → (p, s', r, tt) ∈ l →
  0 ≤ s' < c_n c ∧ is_Some (build_P c !! s').
Proof.
  intros Hl Hin.
  assert (0 ≤ s < c_n c ∧ (a = 0 ∨ a = 1)) as [Hs Ha].
  { apply P_keys_in_range. by rewrite Hl. }
  rewrite build_P_at in Hl by done. inversion Hl; subst l; clear Hl.
  assert (0 ≤ s' < c_n c) as Hs'.
  { unfold outcomes in Hin. simpl in Hin.
    destruct (s =? c_n c - 1) eqn:He, (a =? 0); Z_bools; simpl in Hin;
      rewrite !elem_of_cons, elem_of_nil in Hin;
      destruct Hin as [Hin|[Hin|[]]]; inversion Hin; subst; lia. }
  split; [done|]. rewrite lookup_build_P, decide_True by done. eauto.
Qed.

(** X4: the table has one row per state, [n] rows for [n >= 0] and none for
    a negative [n]; each row of a state has exactly two keys. *)
Theorem table_size :
  size (build_P c) = Z.to_nat (c_n c) ∧
  ∀ (s : Z) (d : gmap Z (list transition)),
    build_P c !! s = Some d → size d = 2%nat.
Proof.
  split.
  - rewrite <- size_dom.
    assert (dom (build_P c) = list_to_set (range (c_n c))) as ->.
    { apply set_eq. intros s. rewrite elem_of_dom, elem_of_list_to_set.
      rewrite elem_of_range, lookup_build_P.
      destruct (decide (0 ≤ s < c_n c)); [by eauto|].
      split; [by intros [? ?] | done]. }
    rewrite size_list_to_set by apply NoDup_seqZ.
    unfold range. apply length_seqZ.
  - intros s d. rewrite lookup_build_P.
    destruct (decide (0 ≤ s < c_n c)); [|done].
    intros [= <-]. rewrite <- size_dom.
    assert (dom (fill_row c (dict_comp (λ _, []) (range 2)) s)
            = list_to_set (range 2)) as ->.
    { apply set_eq. intros k. rewrite elem_of_dom, elem_of_list_to_set.
      rewrite lookup_fill_row, lookup_dict_comp.
      destruct (decide (k ∈ range 2)).
      - rewrite decide_True by eauto. by eauto.
      - rewrite decide_False by (by intros [? ?]).
        split; [by intros [? ?] | done]. }
    rewrite size_list_to_set by apply NoDup_seqZ. done.
Qed.

End TableShape.

(** ** Histories *)

Section Histories.
Context {rng : Type} (rand : rng → Q * rng) (mk_rng : Z → rng).
Implicit Types (e : NChainEnv rng) (c : Config) (a : Z) (k : call)
  (ks : list call).

Lemma valid_action_spec a : valid_action a = true ↔ a = 0 ∨ a = 1.
Proof. unfold valid_action. rewrite orb_true_iff, !Z.eqb_eq. done. Qed.

Lemma valid_action_false a : valid_action a = false ↔ a ≠ 0 ∧ a ≠ 1.
Proof. unfold valid_action. rewrite orb_false_iff, !Z.eqb_neq. done. Qed.

Lemma call_reachable c e k :
  reachable rand mk_rng c e →
  reachable rand mk_rng c (call_env rand mk_rng e k).
Proof. intros Hr. destruct k; simpl; by constructor. Qed.

Lemma play_reachable c e ks :
  reachable rand mk_rng c e → reachable rand mk_rng c (play rand mk_rng e ks).
Proof.
  revert e. induction ks as [|k ks IH]; intros e Hr; simpl; [done|].
  apply IH. by apply call_reachable.
Qed.

(** What a call that passes the assertion returns as [done], and where it
    leaves the counter. *)
Lemma step_done c e a :
  configured c e → valid_action a = true →
  (∃ obs reward : Z,
     fst (step rand e a)
     = Return (obs, reward, iters e + 1 =? max_iters e, ∅)) ∧
  iters (snd (step rand e a))
  = (if iters e + 1 =? max_iters e then 0 else iters e + 1).
Proof.
  intros Hc Ha. apply valid_action_spec in Ha.
  rewrite (step_valid rand c e a Hc Ha). cbv zeta. rewrite step_exec_eq.
  cbv zeta. cbn [fst snd].
  set (x := if Qltb _ _ then _ else _).
  set (e0 := set_np_random e _).
  destruct (move_frame e0 x) as (Hi & Hm & _). simpl in Hi, Hm.
  unfold tick. simpl. rewrite Hi, Hm.
  destruct (iters e + 1 =? max_iters e); simpl; eauto.
Qed.

(** A call that fails the assertion leaves the object alone. *)
Lemma step_rejected c e a :
  configured c e → valid_action a = false →
  step rand e a = (Raise AssertionError, e).
Proof.
  intros Hc Ha. apply valid_action_false in Ha as [H0 H1].
  assert (contains (action_space e) a = false) as Hna.
  { apply not_true_is_false. rewrite (contains_action c e a Hc). lia. }
  unfold step. by rewrite Hna.
Qed.

Lemma valid_steps_nonneg ks : 0 ≤ valid_steps ks.
Proof.
  induction ks as [|[a| |s w] ks IH]; simpl; try lia.
  destruct (valid_action a); lia.
Qed.

(** The counter after a history, for a positive budget. *)
Lemma play_iters c e ks :
  reachable rand mk_rng c e → 1 ≤ c_max_iters c →
  iters (play rand mk_rng e ks)
  = (iters e + valid_steps ks) mod c_max_iters c.
Proof.
  intros Hr Hm. revert e Hr.
  induction ks as [|k ks IH]; intros e Hr.
  - simpl. rewrite Z.add_0_r, Z.mod_small; [done|].
    by apply (reachable_iters rand mk_rng).
  - simpl. rewrite IH by by apply call_reachable.
    pose proof (reachable_iters rand mk_rng c e Hm Hr) as Hb.
    apply reachable_configured in Hr as Hc.
    destruct Hc as (_ & _ & _ & _ & Hmax & _).
    destruct k as [a| |s w]; simpl; [|done|done].
    destruct (valid_action a) eqn:Ha.
    + destruct (step_done c e a) as [_ ->];
        [by apply (reachable_configured rand mk_rng) | done |].
      rewrite Hmax. destruct (iters e + 1 =? c_max_iters c) eqn:Hd; Z_bools.
      * replace (iters e + (valid_steps ks + 1))
          with (valid_steps ks + 1 * c_max_iters c) by lia.
        by rewrite Z.mod_add by lia.
      * f_equal. lia.
    + rewrite (step_rejected c e a);
        [done | by apply (reachable_configured rand mk_rng) | done].
Qed.

(** The counter after a history, without budget. *)
Lemma play_iters_endless c e ks :
  reachable rand mk_rng c e → c_max_iters c ≤ 0 → 0 ≤ iters e →
  iters (play rand mk_rng e ks) = iters e + valid_steps ks.
Proof.
  intros Hr Hm. revert e Hr.
  induction ks as [|k ks IH]; intros e Hr Hi.
  - simpl. lia.
  - apply reachable_configured in Hr as Hc.
    destruct Hc as (_ & _ & _ & _ & Hmax & _).
    simpl. destruct k as [a| |s w]; simpl.
    + destruct (valid_action a) eqn:Ha.
      * destruct (step_done c e a) as [_ He];
          [by apply (reachable_configured rand mk_rng) | done |].
        assert ((iters e + 1 =? max_iters e) = false) as Hd
          by (apply Z.eqb_neq; lia).
        rewrite Hd in He.
        rewrite IH; [rewrite He; lia | by constructor | lia].
      * rewrite (step_rejected c e a);
          [by apply IH | by apply (reachable_configured rand mk_rng) | done].
    + apply (IH (snd (reset e))); [by constructor | done].
    + apply (IH (snd (seed mk_rng e s w))); [by constructor | done].
Qed.

(** X7: with a positive budget, the step counter of an environment is the
    number of accepted [step] calls since construction, modulo [max_iters]:
    calls of [reset] and [seed] and rejected calls of [step] do not count and
    do not restart it. *)
Theorem counter_counts_valid_steps c (w : Z) ks :
  1 ≤ c_max_iters c →
  iters (play rand mk_rng (init mk_rng c w) ks)
  = valid_steps ks mod c_max_iters c.
Proof.
  intros Hm. rewrite (play_iters c) by (done || constructor). done.
Qed.

(** X8: with a positive budget, [step] returns [done = True] exactly on
    every [max_iters]-th accepted call since construction, wherever calls of
    [reset] or [seed] fell in between. *)
Theorem done_every_max_iters c (w : Z) ks a :
  1 ≤ c_max_iters c → valid_action a = true →
  ∃ obs reward : Z,
    fst (step rand (play rand mk_rng (init mk_rng c w) ks) a)
    = Return (obs, reward, (valid_steps ks + 1) mod c_max_iters c =? 0, ∅).
Proof.
  intros Hm Ha.
  assert (reachable rand mk_rng c (play rand mk_rng (init mk_rng c w) ks))
    as Hr by (apply play_reachable; constructor).
  pose proof (reachable_iters rand mk_rng c _ Hm Hr) as Hb.
  apply reachable_configured in Hr as Hc.
  destruct (step_done c _ a Hc Ha) as [(obs & reward & ->) _].
  exists obs, reward. do 3 f_equal.
  destruct Hc as (_ & _ & _ & _ & -> & _).
  rewrite (play_iters c) in Hb |- * by (done || constructor). simpl in *.
  rewrite Z.add_0_l in *.
  rewrite <- (Zplus_mod_idemp_l (valid_steps ks)).
  set (r := valid_steps ks mod c_max_iters c) in *.
  destruct (r + 1 =? c_max_iters c) eqn:Hd; Z_bools; symmetry.
  - apply Z.eqb_eq. rewrite Hd. apply Z_mod_same_full.
  - apply Z.eqb_neq. rewrite Z.mod_small; lia.
Qed.

(** X9: with [max_iters <= 0] the episode never ends: [step] returns
    [done = False] on every accepted call, and the counter is the number of
    accepted calls since construction. *)
Theorem no_budget_never_done c (w : Z) ks a :
  c_max_iters c ≤ 0 → valid_action a = true →
  iters (play rand mk_rng (init mk_rng c w) ks) = valid_steps ks ∧
  ∃ obs reward : Z,
    fst (step rand (play rand mk_rng (init mk_rng c w) ks) a)
    = Return (obs, reward, false, ∅).
Proof.
  intros Hm Ha.
  assert (iters (play rand mk_rng (init mk_rng c w) ks) = valid_steps ks)
    as Hi.
  { rewrite (play_iters_endless c); [done | constructor | done | done]. }
  split; [done|].
  assert (reachable rand mk_rng c (play rand mk_rng (init mk_rng c w) ks))
    as Hr by (apply play_reachable; constructor).
  apply reachable_configured in Hr as Hc.
  destruct (step_done c _ a Hc Ha) as [(obs & reward & ->) _].
  exists obs, reward. do 3 f_equal.
  destruct Hc as (_ & _ & _ & _ & -> & _). rewrite Hi.
  apply Z.eqb_neq. pose proof (valid_steps_nonneg ks). lia.
Qed.

(** ** Moves *)

(** What one call of [step] does to any object: it raises and leaves the
    object alone, or returns the new chain position together with one of
    three moves. *)
Lemma step_cases e a :
  (fst (step rand e a) = Raise AssertionError ∧ snd (step rand e a) = e) ∨
  (∃ (obs reward : Z) (done : bool),
     fst (step rand e a) = Return (obs, reward, done, ∅) ∧
     obs = state (snd (step rand e a)) ∧
     n (snd (step rand e a)) = n e ∧
     small (snd (step rand e a)) = small e ∧
     large (snd (step rand e a)) = large e ∧
     ((reward = small e ∧ obs = 0) ∨
      (reward = 0 ∧ state e < n e - 1 ∧ obs = state e + 1) ∨
      (reward = large e ∧ n e - 1 ≤ state e ∧ obs = state e))).
Proof.
  unfold step. destruct (contains (action_space e) a); simpl; [|by left].
  right. destruct (rand (np_random e)) as [u g].
  unfold step_exec, move, tick. simpl.
  destruct (Qltb u (slip e)); destruct (truthy a); simpl;
    repeat case_if; Z_bools; do 3 eexists; (split; [reflexivity|]); simpl;
    repeat split; lia.
Qed.

(** The generator after a call that passes the assertion. *)
Lemma step_np_random c e a :
  configured c e → valid_action a = true →
  np_random (snd (step rand e a)) = snd (rand (np_random e)).
Proof.
  intros Hc Ha. apply valid_action_spec in Ha.
  rewrite (step_valid rand c e a Hc Ha). cbv zeta. rewrite step_exec_eq.
  cbv zeta. cbn [fst snd].
  set (x := if Qltb _ _ then _ else _).
  set (e0 := set_np_random e _).
  destruct (move_frame e0 x) as (_ & _ & Hg).
  unfold tick. by case_if.
Qed.

(** The outcome of an accepted call, given the outcome of its slip test. *)
Lemma step_outcome c e a (slipped : bool) :
  configured c e → valid_action a = true →
  Qltb (fst (rand (np_random e))) (slip e) = slipped →
  let x := if slipped then negb (truthy a) else truthy a in
  state (snd (step rand e a))
  = (if x then 0 else if state e <? n e - 1 then state e + 1 else state e) ∧
  ∃ done : bool,
    fst (step rand e a)
    = Return (state (snd (step rand e a)),
              (if x then small e
               else if state e <? n e - 1 then 0 else large e),
              done, ∅).
Proof.
  intros Hc Ha Hs. apply valid_action_spec in Ha.
  rewrite (step_valid rand c e a Hc Ha). cbv zeta. rewrite Hs.
  rewrite step_exec_eq. cbv zeta. cbn [fst snd].
  set (x := if slipped then _ else _).
  rewrite tick_state. unfold move.
  destruct x; [|destruct (state _ <? _) eqn:Hlt]; simpl in *;
    rewrite ?Hlt; simpl; eauto.
Qed.

(** X5: with a chain of at least one state, every call of a run either
    raises the assertion error or returns an observation that lies in the
    observation space, a reward that is 0, [small] or [large], and an empty
    info dictionary. *)
Theorem run_outcomes c e (acts : list Z) (r : outcome step_result) :
  reachable rand mk_rng c e → 1 ≤ c_n c → r ∈ run rand e acts →
  r = Raise AssertionError ∨
  ∃ (obs reward : Z) (done : bool),
    r = Return (obs, reward, done, ∅) ∧
    0 ≤ obs < c_n c ∧ contains (observation_space e) obs = true ∧
    (reward = 0 ∨ reward = c_small c ∨ reward = c_large c).
Proof.
  intros Hr Hn. revert e Hr. induction acts as [|a acts IH]; intros e Hr Hin.
  - by apply elem_of_nil in Hin.
  - rewrite run_cons in Hin. apply elem_of_cons in Hin as [->|Hin].
    + assert (reachable rand mk_rng c (snd (step rand e a))) as Hr'
        by by constructor.
      apply (reachable_state rand mk_rng c _ Hn) in Hr'.
      apply reachable_configured in Hr as Hc.
      destruct Hc as (_ & _ & Hsm & Hla & _ & _ & Hos & _).
      destruct (step_cases e a) as
        [[-> _]|(obs & reward & done & -> & Ho & _ & _ & _ & Hcase)];
        [by left|right].
      exists obs, reward, done. rewrite Hos. unfold contains. simpl.
      rewrite <- Hsm, <- Hla. repeat split; lia.
    + assert (observation_space e
              = observation_space (snd (step rand e a))) as ->.
      { apply reachable_configured in Hr as Hc.
        assert (reachable rand mk_rng c (snd (step rand e a))) as Hr'
          by by constructor.
        apply reachable_configured in Hr'.
        destruct Hc as (_ & _ & _ & _ & _ & _ & -> & _).
        by destruct Hr' as (_ & _ & _ & _ & _ & _ & -> & _). }
      apply IH; [by constructor | done].
Qed.

(** X6: the large reward cannot be collected early: when the call number
    [i] (from 0) of a run returns a reward other than 0 and [small], at
    least [n - 1 - state] calls came before it, [state] being the position
    (not negative) the run started from. *)
Theorem large_reward_needs_the_way e (acts : list Z) (i : nat)
    (obs reward : Z) (done : bool) (info : gmap string Z) :
  0 ≤ state e →
  run rand e acts !! i = Some (Return (obs, reward, done, info)) →
  reward ≠ 0 → reward ≠ small e →
  n e - 1 - state e ≤ Z.of_nat i.
Proof.
  revert e i. induction acts as [|a acts IH]; intros e i Hst Hi H0 Hsm.
  - done.
  - rewrite run_cons in Hi.
    destruct (step_cases e a) as
      [[Hf He]|(o & rw & d & Hf & Ho & Hn & Hs & _ & Hcase)].
    + destruct i as [|i]; simpl in Hi; [congruence|].
      rewrite He in Hi. pose proof (IH e i Hst Hi H0 Hsm). lia.
    + destruct i as [|i]; simpl in Hi.
      * rewrite Hf in Hi. inversion Hi; subst. lia.
      * rewrite <- Hs in Hsm.
        assert (0 ≤ state (snd (step rand e a))) as Hst' by lia.
        pose proof (IH _ i Hst' Hi H0 Hsm) as Hle.
        rewrite Hn, <- Ho in Hle. lia.
Qed.

(** X10: calls of [step] that fail the assertion are no-ops: dropping them
    from a sequence of requested actions leaves exactly the outcomes of the
    calls that returned. *)
Theorem rejected_calls_are_noops c e (acts : list Z) :
  reachable rand mk_rng c e →
  run rand e (filter (λ a, valid_action a) acts)
  = filter (λ r, returned r) (run rand e acts).
Proof.
  revert e. induction acts as [|a acts IH]; intros e Hr; [done|].
  apply reachable_configured in Hr as Hc.
  rewrite (run_cons rand e a acts).
  destruct (valid_action a) eqn:Ha.
  - rewrite filter_cons_True by (by apply Is_true_true_2).
    destruct (step_done c e a Hc Ha) as [(obs & reward & Hf) _].
    rewrite run_cons, Hf.
    rewrite filter_cons_True by done.
    f_equal. apply IH. by constructor.
  - rewrite filter_cons_False by (by apply Is_true_false_2).
    rewrite (step_rejected c e a Hc Ha). simpl.
    rewrite filter_cons_False by (by intros []). by apply IH.
Qed.

(** X11: each accepted call of [step] takes exactly one draw from the
    generator, and neither [reset] nor a rejected [step] takes any: after a
    history without [seed] the generator has advanced by as many draws as
    the history has accepted steps. *)
Theorem generator_draws c e ks :
  reachable rand mk_rng c e → forallb (λ k, negb (is_seed k)) ks = true →
  np_random (play rand mk_rng e ks)
  = Nat.iter (Z.to_nat (valid_steps ks)) (λ g, snd (rand g)) (np_random e).
Proof.
  revert e. induction ks as [|k ks IH]; intros e Hr Hns; [done|].
  simpl in Hns. apply andb_true_iff in Hns as [Hk Hns].
  apply reachable_configured in Hr as Hc.
  pose proof (valid_steps_nonneg ks) as Hv.
  simpl. rewrite IH by (by apply call_reachable || done).
  destruct k as [a| |s w]; simpl; [|done|done].
  destruct (valid_action a) eqn:Ha.
  - rewrite (step_np_random c e a Hc Ha).
    replace (Z.to_nat (valid_steps ks + 1))
      with (S (Z.to_nat (valid_steps ks))) by lia.
    by rewrite Nat.iter_succ_r.
  - by rewrite (step_rejected c e a Hc Ha).
Qed.

(** X12: with a generator that never draws below the slip probability
    (slip = 0, say), [k] consecutive forward calls from position [state]
    lead to position [min(state + k, n - 1)], and the next forward call
    returns [min(state + k + 1, n - 1)], with reward 0 as long as the end of
    the chain was not reached and [large] from then on. *)
Theorem forward_without_slip c e (k : nat) :
  reachable rand mk_rng c e → 1 ≤ c_n c →
  (∀ g : rng, (c_slip c <= fst (rand g))%Q) →
  let e' := play rand mk_rng e (replicate k (Step 0)) in
  state e' = Z.min (state e + Z.of_nat k) (c_n c - 1) ∧
  ∃ done : bool,
    fst (step rand e' 0)
    = Return (Z.min (state e + Z.of_nat k + 1) (c_n c - 1),
              (if state e + Z.of_nat k <? c_n c - 1 then 0 else c_large c),
              done, ∅).
Proof.
  intros Hr Hn Hns.
  assert (∀ e0, reachable rand mk_rng c e0 →
            state (snd (step rand e0 0))
            = Z.min (state e0 + 1) (c_n c - 1) ∧
            ∃ done : bool,
              fst (step rand e0 0)
              = Return (Z.min (state e0 + 1) (c_n c - 1),
                        (if state e0 <? c_n c - 1 then 0 else c_large c),
                        done, ∅)) as Hone.
  { intros e0 Hr0. pose proof (reachable_state rand mk_rng c e0 Hn Hr0) as Hb.
    apply reachable_configured in Hr0 as Hc.
    destruct (step_outcome c e0 0 false Hc) as [Hs [d Hf]]; [done| |].
    - apply Qltb_nlt, Qle_not_lt.
      destruct Hc as (_ & -> & _). apply Hns.
    - destruct Hc as (Hcn & _ & _ & Hla & _). simpl in Hs, Hf.
      rewrite Hcn, ?Hla in Hs, Hf. rewrite Hf, Hs.
      destruct (state e0 <? c_n c - 1) eqn:Hlt; Z_bools.
      + rewrite Z.min_l by lia. eauto.
      + rewrite Z.min_r by lia. split; [lia|]. exists d. rewrite ?Hla.
        by replace (state e0) with (c_n c - 1) by lia. }
  cbv zeta. revert e Hr. induction k as [|k IH]; intros e Hr.
  - simpl. pose proof (reachable_state rand mk_rng c e Hn Hr) as Hb.
    rewrite !Z.add_0_r. destruct (Hone e Hr) as [_ Hf].
    split; [lia | done].
  - simpl. destruct (Hone e Hr) as [Hs _].
    destruct (IH (snd (step rand e 0))) as [IHs [d IHf]]; [by constructor|].
    pose proof (reachable_state rand mk_rng c e Hn Hr) as Hb.
    rewrite IHs, IHf, Hs. split; [lia|]. exists d.
    destruct (state e <? c_n c - 1) eqn:Hlt; Z_bools.
    + rewrite (Z.min_l (state e + 1)) by lia.
      replace (state e + 1 + Z.of_nat k) with (state e + Z.of_nat (S k))
        by lia. done.
    + rewrite (Z.min_r (state e + 1)) by lia.
      rewrite !Z.min_r by lia.
      assert ((c_n c - 1 + Z.of_nat k <? c_n c - 1) = false) as ->
        by (apply Z.ltb_ge; lia).
      assert ((state e + Z.of_nat (S k) <? c_n c - 1) = false) as ->
        by (apply Z.ltb_ge; lia).
      done.
Qed.

(** X13: with a generator whose draws are all below the slip probability
    (slip = 1, say) the controls are inverted: a requested forward move
    returns to state 0 with reward [small], and a requested backward move
    advances along the chain, or collects [large] on the last state. *)
Theorem always_slip_inverts c e :
  reachable rand mk_rng c e →
  (∀ g : rng, (fst (rand g) < c_slip c)%Q) →
  ∃ d0 d1 : bool,
    fst (step rand e 0) = Return (0, c_small c, d0, ∅) ∧
    fst (step rand e 1)
    = Return ((if state e <? c_n c - 1 then state e + 1 else state e),
              (if state e <? c_n c - 1 then 0 else c_large c), d1, ∅).
Proof.
  intros Hr Hs. apply reachable_configured in Hr as Hc.
  assert (Qltb (fst (rand (np_random e))) (slip e) = true) as Hslip.
  { apply Qltb_lt. destruct Hc as (_ & -> & _). apply Hs. }
  destruct (step_outcome c e 0 true Hc) as [H0 [d0 Hf0]]; [done..|].
  destruct (step_outcome c e 1 true Hc) as [H1 [d1 Hf1]]; [done..|].
  destruct Hc as (Hn & _ & Hsm & Hla & _). simpl in *.
  exists d0, d1. rewrite Hf0, Hf1, H0, H1, Hn, Hsm, Hla. done.
Qed.

(** X14: no call changes what construction fixed: after any history of
    [step], [reset] and [seed] calls the parameters, the two spaces and the
    transition table are those [__init__] set up. *)
Theorem construction_is_fixed c (w : Z) ks :
  let e := play rand mk_rng (init mk_rng c w) ks in
  n e = c_n c ∧ slip e = c_slip c ∧ small e = c_small c ∧
  large e = c_large c ∧ max_iters e = c_max_iters c ∧
  action_space e = {| space_n := 2 |} ∧
  observation_space e = {| space_n := c_n c |} ∧
  P e = build_P c.
Proof.
  apply (reachable_configured rand mk_rng), play_reachable. constructor.
Qed.

Lemma reachable_single_state c e :
  c_n c ≤ 1 → reachable rand mk_rng c e → state e = 0.
Proof.
  intros Hn. induction 1 as [w|e a Hr IH|e Hr IH|e s w Hr IH];
    [done| |done|done].
  apply reachable_configured in Hr as (Hcn & _).
  destruct (step_cases e a) as
    [[_ ->]|(o & rw & d & _ & <- & _ & _ & _ & Hcase)]; [done|]. lia.
Qed.

(** X15: a chain of at most one state never leaves state 0: every accepted
    call returns observation 0, with reward [small] when the executed action
    (the requested one, negated when the draw is below [slip]) is backward
    and with reward [large] when it is forward, never the 0 of a move along
    the chain; and for [n <= 0] that observation lies outside the
    observation space. *)
Theorem single_state_chain c (w : Z) ks a :
  c_n c ≤ 1 → valid_action a = true →
  let e := play rand mk_rng (init mk_rng c w) ks in
  let backward := if Qltb (fst (rand (np_random e))) (slip e)
                  then negb (truthy a) else truthy a in
  state e = 0 ∧
  (contains (observation_space e) 0 = true ↔ c_n c = 1) ∧
  ∃ done : bool,
    fst (step rand e a)
    = Return (0, (if backward then c_small c else c_large c), done, ∅).
Proof.
  intros Hn Ha. cbv zeta.
  assert (reachable rand mk_rng c (play rand mk_rng (init mk_rng c w) ks))
    as Hr by (apply play_reachable; constructor).
  set (e := play rand mk_rng (init mk_rng c w) ks) in *.
  pose proof (reachable_single_state c e Hn Hr) as Hs.
  assert (state (snd (step rand e a)) = 0) as Hs'
    by (apply (reachable_single_state c); [done | by constructor]).
  apply reachable_configured in Hr as Hc.
  split; [done|]. split.
  - destruct Hc as (_ & _ & _ & _ & _ & _ & -> & _). unfold contains. simpl.
    rewrite Z.ltb_lt. lia.
  - destruct (step_outcome c e a _ Hc Ha eq_refl) as [_ [d Hf]].
    cbv zeta in Hf. rewrite Hs' in Hf.
    destruct Hc as (Hcn & _ & Hsm & Hla & _).
    rewrite Hs, Hcn, Hsm, Hla in Hf.
    assert ((0 <? c_n c - 1) = false) as Hlt by (apply Z.ltb_ge; lia).
    rewrite Hlt in Hf. by exists d.
Qed.

End Histories.

(** ** The further properties at concrete environments *)

Lemma lcg_rand_below_one (g : Z) : (fst (lcg_rand g) < 1)%Q.
Proof.
  unfold lcg_rand, Qlt. simpl.
  pose proof (Z.mod_pos_bound g 1000). lia.
Qed.

Lemma table_entries_witness :
  let forward := (Z.min (4 + 1) (c_n default_config - 1),
                  if 4 =? c_n default_config - 1
                  then c_large default_config else 0) in
  build_P default_config !! 4 ≫= (λ d, d !! 0)
  = Some [(fsub 1 (c_slip default_config), fst forward, snd forward, tt);
          (c_slip default_config, 0, c_small default_config, tt)] ∧
  build_P default_config !! 4 ≫= (λ d, d !! 1)
  = Some [(fsub 1 (c_slip default_config), 0, c_small default_config, tt);
          (c_slip default_config, fst forward, snd forward, tt)].
Proof.
  apply (table_entries default_config 4). simpl. lia.
Defined.

Lemma table_closed_witness :
  0 ≤ 0 < c_n default_config ∧ is_Some (build_P default_config !! 0).
Proof.
  apply (table_closed default_config 4 0 (outcomes default_config 4 0)
           (c_slip default_config) 0 2).
  - vm_compute. reflexivity.
  - simpl. apply elem_of_cons. right. apply elem_of_cons. left. reflexivity.
Defined.

Lemma run_outcomes_witness :
  (Return (0, 2, false, ∅) : outcome step_result) = Raise AssertionError ∨
  ∃ (obs reward : Z) (done : bool),
    (Return (0, 2, false, ∅) : outcome step_result)
    = Return (obs, reward, done, ∅) ∧
    0 ≤ obs < c_n default_config ∧
    contains (observation_space demo_env) obs = true ∧
    (reward = 0 ∨ reward = c_small default_config
     ∨ reward = c_large default_config).
Proof.
  apply (run_outcomes lcg_rand lcg_seed default_config demo_env [0; 2]).
  - exact demo_reachable.
  - simpl. lia.
  - rewrite run_cons. apply elem_of_cons. left. vm_compute. reflexivity.
Defined.

Lemma large_reward_needs_the_way_witness :
  n demo_scenario - 1 - state demo_scenario ≤ Z.of_nat 4.
Proof.
  apply (large_reward_needs_the_way lcg_rand demo_scenario [0; 0; 0; 0; 0] 4
           4 10 false ∅).
  - simpl. lia.
  - vm_compute. reflexivity.
  - lia.
  - simpl. lia.
Defined.

Lemma counter_counts_valid_steps_witness :
  iters (play lcg_rand lcg_seed (init lcg_seed default_config 0)
           [Step 0; Reset; Step 2; Step 1])
  = valid_steps [Step 0; Reset; Step 2; Step 1]
    mod c_max_iters default_config.
Proof.
  apply (counter_counts_valid_steps lcg_rand lcg_seed default_config 0).
  simpl. lia.
Defined.

Lemma done_every_max_iters_witness :
  ∃ obs reward : Z,
    fst (step lcg_rand
           (play lcg_rand lcg_seed (init lcg_seed short_config 0)
              [Step 0; Reset; Step 2]) 1)
    = Return (obs, reward,
              (valid_steps [Step 0; Reset; Step 2] + 1)
                mod c_max_iters short_config =? 0, ∅).
Proof.
  apply (done_every_max_iters lcg_rand lcg_seed short_config 0).
  - simpl. lia.
  - reflexivity.
Defined.

Lemma no_budget_never_done_witness :
  iters (play lcg_rand lcg_seed (init lcg_seed endless_config 0)
           [Step 0; Step 1])
  = valid_steps [Step 0; Step 1] ∧
  ∃ obs reward : Z,
    fst (step lcg_rand
           (play lcg_rand lcg_seed (init lcg_seed endless_config 0)
              [Step 0; Step 1]) 0)
    = Return (obs, reward, false, ∅).
Proof.
  apply (no_budget_never_done lcg_rand lcg_seed endless_config 0).
  - simpl. lia.
  - reflexivity.
Defined.

Lemma rejected_calls_are_noops_witness :
  run lcg_rand demo_env (filter (λ a, valid_action a) [0; 2; 1; -1])
  = filter (λ r, returned r) (run lcg_rand demo_env [0; 2; 1; -1]).
Proof.
  apply (rejected_calls_are_noops lcg_rand lcg_seed default_config demo_env).
  exact demo_reachable.
Defined.

Lemma generator_draws_witness :
  np_random (play lcg_rand lcg_seed demo_env [Step 0; Reset; Step 5])
  = Nat.iter (Z.to_nat (valid_steps [Step 0; Reset; Step 5]))
      (λ g, snd (lcg_rand g)) (np_random demo_env).
Proof.
  apply (generator_draws lcg_rand lcg_seed default_config demo_env).
  - exact demo_reachable.
  - reflexivity.
Defined.

Lemma forward_without_slip_witness :
  let e' := play lcg_rand lcg_seed demo_scenario (replicate 6 (Step 0)) in
  state e'
  = Z.min (state demo_scenario + Z.of_nat 6) (c_n scenario_config - 1) ∧
  ∃ done : bool,
    fst (step lcg_rand e' 0)
    = Return (Z.min (state demo_scenario + Z.of_nat 6 + 1)
                (c_n scenario_config - 1),
              (if state demo_scenario + Z.of_nat 6 <? c_n scenario_config - 1
               then 0 else c_large scenario_config),
              done, ∅).
Proof.
  apply (forward_without_slip lcg_rand lcg_seed scenario_config
           demo_scenario 6).
  - apply reach_init.
  - simpl. lia.
  - exact lcg_rand_nonneg.
Defined.

Lemma always_slip_inverts_witness :
  ∃ d0 d1 : bool,
    fst (step lcg_rand (init lcg_seed slippery_config 0) 0)
    = Return (0, c_small slippery_config, d0, ∅) ∧
    fst (step lcg_rand (init lcg_seed slippery_config 0) 1)
    = Return ((if state (init lcg_seed slippery_config 0)
                  <? c_n slippery_config - 1
               then state (init lcg_seed slippery_config 0) + 1
               else state (init lcg_seed slippery_config 0)),
              (if state (init lcg_seed slippery_config 0)
                  <? c_n slippery_config - 1
               then 0 else c_large slippery_config), d1, ∅).
Proof.
  apply (always_slip_inverts lcg_rand lcg_seed slippery_config).
  - apply reach_init.
  - exact lcg_rand_below_one.
Defined.

Lemma single_state_chain_witness :
  let e := play lcg_rand lcg_seed (init lcg_seed unit_config 0)
             [Step 0; Step 1] in
  let backward := if Qltb (fst (lcg_rand (np_random e))) (slip e)
                  then negb (truthy 0) else truthy 0 in
  state e = 0 ∧
  (contains (observation_space e) 0 = true ↔ c_n unit_config = 1) ∧
  ∃ done : bool,
    fst (step lcg_rand e 0)
    = Return (0, (if backward then c_small unit_config
                  else c_large unit_config), done, ∅).
Proof.
  apply (single_state_chain lcg_rand lcg_seed unit_config 0).
  - simpl. lia.
  - reflexivity.
Defined.
